(** * gemlib_tfp: occult-event kernel and discrete-time state transition model

    A shallow embedding of

    - [gemlib_tfp/mcmc/occult_events_mh.py]
      ([_maybe_expand_dims], [_add_events], [UncalibratedOccultUpdate]) and
    - [gemlib_tfp/distributions/discrete_time_state_transition.py]
      ([DiscreteTimeStateTransitionModel]).

    Conventions.

    - Event counts are integer-valued tensor entries; they are modelled as [Z].
      The event tensor is indexed [m][t][x] (metapopulation, time, transition),
      the order in which [_add_events] stacks its indices.
    - The event tensor is a floating-point tensor. [OccultEventsMH] reads the
      code with exact integer sums; [Rounded] has the same functions with the
      rounding of a floating-point type of [p] significant bits (24 for
      float32, 53 for float64). The two agree as long as the counts stay
      among the integers that type holds exactly, up to [2 ^ p] in magnitude;
      statements about exact sums are made on [Rounded].
    - Log densities and the uniform variate are modelled as exact rationals [Q].
    - A TensorFlow/Python call that raises is modelled by [None].
    - Random draws are explicit arguments: the value of
      [tfd.Uniform().sample()] is the argument [u], the value returned by
      [proposal.sample()] is the argument [update]. *)

From Stdlib Require Import ZArith QArith Qround Qfield String.
From stdpp Require Import base option list.

Local Open Scope Z_scope.

(** ** Tensors *)

(** A rank-3 integer tensor, outermost dimension first. *)
Abbreviation Tensor2 := (list (list Z)).
Abbreviation Tensor3 := (list (list (list Z))).

(** An index read from an integer tensor: negative values are out of bounds
    for gather and scatter. *)
Definition zidx (i : Z) : option nat :=
  if 0 <=? i then Some (Z.to_nat i) else None.

(** [events[m, t, x]], [None] when out of bounds. *)
Definition cell (events : Tensor3) (m t x : nat) : option Z :=
  row ← events !! m; col ← row !! t; col !! x.

(** Entry-wise update of one cell; out of bounds leaves the tensor as it is. *)
Definition alter_cell (f : Z → Z) (m t x : nat) (events : Tensor3) : Tensor3 :=
  alter (alter (alter f x) t) m events.

(** [tf.stack([m, t, x], axis=-1)] on three rank-1 tensors: the three must
    have the same shape; row [i] of the result is [[m_i; t_i; x_i]]. *)
Fixpoint tf_stack3 (m t x : list Z) : option (list (list Z)) :=
  match m, t, x with
  | [], [], [] => Some []
  | mi :: m', ti :: t', xi :: x' =>
      rest ← tf_stack3 m' t' x'; Some ([mi; ti; xi] :: rest)
  | _, _, _ => None
  end.

(** One row of [tf.tensor_scatter_nd_add] on a rank-3 tensor: the index row
    has three in-bounds components (an out-of-bounds index is an error). *)
Definition scatter_add_row (tensor : Tensor3) (ix : list Z) (v : Z)
  : option Tensor3 :=
  match ix with
  | [m; t; x] =>
      im ← zidx m; it ← zidx t; ixx ← zidx x;
      _ ← cell tensor im it ixx;
      Some (alter_cell (λ c, c + v) im it ixx tensor)
  | _ => None
  end.

(** [tf.tensor_scatter_nd_add(tensor, indices, updates)] with [indices] of
    shape [N, 3] and [updates] of shape [N]; rows are applied in order, so
    repeated indices accumulate. *)
Fixpoint tensor_scatter_nd_add (tensor : Tensor3) (indices : list (list Z))
    (updates : list Z) : option Tensor3 :=
  match indices, updates with
  | [], [] => Some tensor
  | ix :: indices', v :: updates' =>
      tensor' ← scatter_add_row tensor ix v;
      tensor_scatter_nd_add tensor' indices' updates'
  | _, _ => None
  end.

(** [tensor[..., x]]: the slice of the last dimension at position [x]. *)
Definition slice_last (tensor : Tensor3) (x : nat) : option Tensor2 :=
  mapM (mapM (λ col : list Z, col !! x)) tensor.

(** [tf.math.count_nonzero] of a rank-2 tensor. *)
Definition count_nonzero (s : Tensor2) : nat :=
  length (filter (λ z : Z, z ≠ 0) (concat s)).

(** Every entry of the tensor is at least zero. *)
Definition non_negative (tensor : Tensor3) : Prop :=
  Forall (Forall (Forall (λ c : Z, 0 ≤ c))) tensor.

(** [tf.reduce_sum] of a rank-1 tensor of log densities. *)
Definition reduce_sum (l : list Q) : Q := foldr Qplus 0%Q l.

(** [a < b] on rationals, as a boolean. *)
Definition Qltb (a b : Q) : bool := negb (Qle_bool b a).

(** ** occult_events_mh.py *)

Module OccultEventsMH.

(** [_nonzero_rows(m)] on a rank-2 tensor: [reduce_sum(m, axis=-1) > 0.0],
    cast back to the entries' type, so one flag 1 or 0 per row. *)
Definition _nonzero_rows (m : Tensor2) : list Z :=
  (λ row : list Z, if 0 <? foldr Z.add 0 row then 1 else 0) <$> m.

(** The argument [x] of [_add_events]: the add branch passes the bare
    [topology.target], the delete branch the one-element list. *)
Inductive IndexArg :=
| Scalar (x : Z)
| Vector (xs : list Z).

(** [_maybe_expand_dims]: a scalar gets one dimension, anything else is kept. *)
Definition _maybe_expand_dims (x : IndexArg) : list Z :=
  match x with
  | Scalar x => [x]
  | Vector xs => xs
  end.

(** [_add_events(events, m, t, x, x_star)]. *)
Definition _add_events (events : Tensor3) (m t : list Z) (x : IndexArg)
    (x_star : list Z) : option Tensor3 :=
  let x := _maybe_expand_dims x in
  indices ← tf_stack3 m t x;
  tensor_scatter_nd_add events indices x_star.

(** The dictionary returned by [proposal.sample()]: three rank-1 integer
    tensors. *)
Record Update := mkUpdate {
  m : list Z;
  t : list Z;
  x_star : list Z
}.

(** [topology]: only the [target] attribute is read by the kernel; it is a
    position in the last dimension of the event tensor. *)
Record Topology := mkTopology {
  target : nat
}.

(** [OccultKernelResults]. *)
Record OccultKernelResults := mkResults {
  log_acceptance_correction : Q;
  target_log_prob : Q;
  extra : list Z
}.

(** A proposal object. [may_sample update] tells whether [sample()] can
    return [update]; [log_prob] is the method of that name. *)
Record Proposal := mkProposal {
  may_sample : Update → bool;
  log_prob : Update → list Q
}.

(** The [_parameters] dictionary of [UncalibratedOccultUpdate]; [State] is the
    type of [cumulative_event_offset], which the kernel only hands on. *)
Record Kernel (State : Type) := mkKernel {
  target_log_prob_fn : Tensor3 → Q;
  topology : Topology;
  cumulative_event_offset : State;
  nmax : Z;
  t_range : option (Z * Z);
  seed : option Z;
  name : option string
}.
Arguments target_log_prob_fn {State} _ _.
Arguments topology {State} _.
Arguments cumulative_event_offset {State} _.
Arguments nmax {State} _.
Arguments t_range {State} _.
Arguments seed {State} _.
Arguments name {State} _.

Inductive Branch := Add | Delete.

#[global] Instance Branch_eq_dec : EqDecision Branch.
Proof. solve_decision. Defined.

Section Kernel.

Context {State : Type}.

(** The proposal constructors of [gemlib_tfp.mcmc.occult_proposal], as the
    kernel calls them (keyword arguments in the order of the add call). *)
Variable AddOccultProposal :
  Tensor3 → Topology → State → Z → option (Z * Z) → option string → Proposal.
Variable DelOccultProposal :
  Tensor3 → Topology → State → option (Z * Z) → Z → Proposal.

Implicit Types (k : Kernel State) (events : Tensor3) (update : Update).

Definition _initial_state k : State := cumulative_event_offset k.

Definition is_calibrated k : bool := false.

(** [self.name + "rev"]: string concatenation, a [TypeError] when the kernel
    was built with the default [name=None]. *)
Definition name_rev k : option string :=
  match name k with
  | Some s => Some (s ++ "rev")%string
  | None => None
  end.

(** The closure [add_occult_fn] of [one_step]. *)
Definition add_occult_fn k current_events update
  : option (Update * Tensor3 * Q) :=
  let proposal :=
    AddOccultProposal current_events (topology k) (_initial_state k)
      (nmax k) (t_range k) (name k) in
  next_state ←
    _add_events current_events (m update) (t update)
      (Scalar (Z.of_nat (target (topology k)))) (x_star update);
  let reverse :=
    DelOccultProposal next_state (topology k) (_initial_state k)
      (t_range k) (nmax k) in
  let q_fwd := reduce_sum (log_prob proposal update) in
  let q_rev := reduce_sum (log_prob reverse update) in
  let log_acceptance_correction := (q_rev - q_fwd)%Q in
  Some (update, next_state, log_acceptance_correction).

(** The closure [del_occult_fn] of [one_step]. *)
Definition del_occult_fn k current_events update
  : option (Update * Tensor3 * Q) :=
  let proposal :=
    DelOccultProposal current_events (topology k) (_initial_state k)
      (t_range k) (nmax k) in
  next_state ←
    _add_events current_events (m update) (t update)
      (Vector [Z.of_nat (target (topology k))]) (Z.opp <$> x_star update);
  rev_name ← name_rev k;
  let reverse :=
    AddOccultProposal next_state (topology k) (_initial_state k)
      (nmax k) (t_range k) (Some rev_name) in
  let q_fwd := reduce_sum (log_prob proposal update) in
  let q_rev := reduce_sum (log_prob reverse update) in
  let log_acceptance_correction := (q_rev - q_fwd)%Q in
  Some (update, next_state, log_acceptance_correction).

(** The predicate of the [tf.cond] in [one_step]. *)
Definition delete_pred (u : Q) (target_slice : Tensor2) : bool :=
  Qltb u (1 # 2) && bool_decide (0 < count_nonzero target_slice)%nat.

(** The branch the [tf.cond] runs. *)
Definition chosen_branch k current_events (u : Q) : option Branch :=
  target_slice ← slice_last current_events (target (topology k));
  Some (if delete_pred u target_slice then Delete else Add).

(** [one_step(current_events, previous_kernel_results)]. *)
Definition one_step k current_events
    (previous_kernel_results : OccultKernelResults) (u : Q) update
  : option (Tensor3 * OccultKernelResults) :=
  branch ← chosen_branch k current_events u;
  '(delta, next_state, log_acceptance_correction) ←
    match branch with
    | Delete => del_occult_fn k current_events update
    | Add => add_occult_fn k current_events update
    end;
  let next_target_log_prob := target_log_prob_fn k next_state in
  Some (next_state,
        {| log_acceptance_correction := log_acceptance_correction;
           target_log_prob := next_target_log_prob;
           extra := m delta ++ t delta ++ x_star delta |}).

(** The proposal whose [sample()] the chosen branch calls. *)
Definition forward_proposal k current_events (branch : Branch) : Proposal :=
  match branch with
  | Add =>
      AddOccultProposal current_events (topology k) (_initial_state k)
        (nmax k) (t_range k) (name k)
  | Delete =>
      DelOccultProposal current_events (topology k) (_initial_state k)
        (t_range k) (nmax k)
  end.

(** One call of [one_step] as a transition of the chain: some uniform variate
    and some update the forward proposal can sample make the call return
    [next_state] and [results]. *)
Inductive kernel_step k (current_events : Tensor3)
  : Branch → Update → Tensor3 → OccultKernelResults → Prop :=
| kernel_step_intro previous_kernel_results u branch update next_state results :
    chosen_branch k current_events u = Some branch →
    may_sample (forward_proposal k current_events branch) update = true →
    one_step k current_events previous_kernel_results u update
      = Some (next_state, results) →
    kernel_step k current_events branch update next_state results.

(** The event tensors a chain of [one_step] calls passes through. *)
Inductive reachable k (init_events : Tensor3) : Tensor3 → Prop :=
| reachable_init : reachable k init_events init_events
| reachable_step events branch update next_state results :
    reachable k init_events events →
    kernel_step k events branch update next_state results →
    reachable k init_events next_state.

(** [bootstrap_results(init_state)]. *)
Definition bootstrap_results k (init_state : Tensor3) : OccultKernelResults :=
  let init_target_log_prob := target_log_prob_fn k init_state in
  {| log_acceptance_correction := 0%Q;
     target_log_prob := init_target_log_prob;
     extra := [0; 0; 0] |}.

End Kernel.

End OccultEventsMH.


(** ** discrete_time_state_transition.py *)

Module DiscreteTimeStateTransition.

(** A [tf.TensorShape]: one entry per dimension, [None] for an unknown one. *)
Abbreviation TensorShape := (list (option nat)).

(** The attributes set by [__init__]. [stoichiometry] has one row per
    transition, [initial_state] one row per metapopulation; [num_steps] is the
    Python integer the constructor is given. *)
Record Model (Hazard : Type) := mkModel {
  transition_rates : Hazard;
  stoichiometry : Tensor2;
  initial_state : Tensor2;
  initial_step : Q;
  time_delta : Q;
  num_steps : nat
}.
Arguments transition_rates {Hazard} _.
Arguments stoichiometry {Hazard} _.
Arguments initial_state {Hazard} _.
Arguments initial_step {Hazard} _.
Arguments time_delta {Hazard} _.
Arguments num_steps {Hazard} _.

(** [tf.get_static_value] of a Python integer: the integer itself. *)
Definition tf_get_static_value (n : nat) : option nat := Some n.

(** [tensor.shape[0]]. *)
Definition shape0 {A} (tensor : list A) : option nat := Some (length tensor).

(** [tf.transpose(sim, perm=(1, 0, 2))]: entry [j][i] of the result is entry
    [i][j] of the argument; the width is read off the first row. *)
Definition tf_transpose_102 (sim : Tensor3) : Tensor3 :=
  let width := from_option length 0%nat (head sim) in
  (λ j, omap (λ row : Tensor2, row !! j) sim) <$> seq 0 width.

(** [tf.expand_dims(sim, 0)]. *)
Definition tf_expand_dims_0 {A} (sim : A) : list A := [sim].

(** Code that draws random numbers runs against the ambient generator of
    the process, of state [G]: it returns its value and the generator's new
    state. *)
Definition Rand (G A : Type) : Type := G → A * G.

Section Model.

Context {Hazard Seed Sim Coords G : Type}.

(** [gemlib_tfp.distributions.impl.discrete_markov.discrete_markov_simulation]
    with its keyword arguments [hazard_fn], [state], [start], [end],
    [time_step], [stoichiometry], [seed], and the two helpers of
    [gemlib_tfp.distributions.impl.util]. *)
Variable discrete_markov_simulation :
  Hazard → Tensor2 → Q → Q → Q → Tensor2 → option Seed → Rand G (list Q * Sim).
Variable transition_coords : Tensor2 → Coords.
Variable batch_gather : Sim → Coords → Tensor3.

Implicit Types (self : Model Hazard).

(** [_batch_shape]. *)
Definition _batch_shape self : TensorShape := [].

(** [_event_shape]. *)
Definition _event_shape self : TensorShape :=
  [ shape0 (initial_state self);
    tf_get_static_value (num_steps self);
    shape0 (stoichiometry self) ].

(** [_sample_n(n, seed=None)]. *)
Definition _sample_n self (n : nat) (seed : option Seed)
  : Rand G (list Tensor3) :=
  λ g,
    let '((t, sim), g) :=
      discrete_markov_simulation
        (transition_rates self)
        (initial_state self)
        (initial_step self)
        (initial_step self + inject_Z (Z.of_nat (num_steps self)) * time_delta self)%Q
        (time_delta self)
        (stoichiometry self)
        seed g in
    let indices := transition_coords (stoichiometry self) in
    let sim := batch_gather sim indices in
    let sim := tf_transpose_102 sim in
    (tf_expand_dims_0 sim, g).

End Model.

End DiscreteTimeStateTransition.


(** ** The occult proposal pair (gemlib_tfp.mcmc.occult_proposal) *)

Module OccultProposal.

Import OccultEventsMH.

(** A time index lies in [t_range], when one is given. *)
Definition in_t_range (t_range : option (Z * Z)) (t : Z) : bool :=
  match t_range with
  | Some (lo, hi) => (lo <=? t) && (t <? hi)
  | None => true
  end.

(** Modelled from the spec: the triples [AddOccultProposal(...).sample()] can
    return; the module [occult_proposal] is not part of the sources at hand.
    The draw is one (metapopulation, time, count) triple: a metapopulation
    index and a time index of the event tensor, the time index within
    [t_range] if one is given, and a count [x_star] of events to insert that
    never exceeds [n_max]. The further restriction to cells compatible with
    the topology only removes triples and is left out. *)
Definition AddOccultProposal_support (events : Tensor3) (topology : Topology)
    (n_max : Z) (t_range : option (Z * Z)) (update : Update) : bool :=
  match m update, t update, x_star update with
  | [m0], [t0], [x0] =>
      match zidx m0, zidx t0 with
      | Some im, Some it =>
          bool_decide (is_Some (cell events im it (target topology)))
          && in_t_range t_range t0
          && (0 <=? x0) && (x0 <=? n_max)
      | _, _ => false
      end
  | _, _, _ => false
  end.

(** Modelled from the spec: the triples [DelOccultProposal(...).sample()] can
    return. The draw is one (metapopulation, time, count) triple to remove
    from the events at the target transition, the time index within [t_range]
    if one is given; the count never exceeds the events currently present at
    that cell. *)
Definition DelOccultProposal_support (events : Tensor3) (topology : Topology)
    (t_range : option (Z * Z)) (update : Update) : bool :=
  match m update, t update, x_star update with
  | [m0], [t0], [x0] =>
      match zidx m0, zidx t0 with
      | Some im, Some it =>
          match cell events im it (target topology) with
          | Some c => in_t_range t_range t0 && (0 <=? x0) && (x0 <=? c)
          | None => false
          end
      | _, _ => false
      end
  | _, _, _ => false
  end.

Section Constructors.

Context {State : Type}.

(** The log densities of the two sampling laws, which the spec leaves open. *)
Variable add_log_prob :
  Tensor3 → Topology → State → Z → option (Z * Z) → Update → list Q.
Variable del_log_prob :
  Tensor3 → Topology → State → option (Z * Z) → Z → Update → list Q.

(** Modelled from the spec: [AddOccultProposal(events, topology,
    initial_state, n_max, t_range, name)]; [name] labels the operations of the
    graph and changes no value. *)
Definition AddOccultProposal (events : Tensor3) (topology : Topology)
    (initial_state : State) (n_max : Z) (t_range : option (Z * Z))
    (name : option string) : Proposal :=
  {| may_sample := AddOccultProposal_support events topology n_max t_range;
     log_prob := add_log_prob events topology initial_state n_max t_range |}.

(** Modelled from the spec: [DelOccultProposal(events, topology,
    initial_state, t_range, n_max)]. *)
Definition DelOccultProposal (events : Tensor3) (topology : Topology)
    (initial_state : State) (t_range : option (Z * Z)) (n_max : Z) : Proposal :=
  {| may_sample := DelOccultProposal_support events topology t_range;
     log_prob := del_log_prob events topology initial_state t_range n_max |}.

End Constructors.

End OccultProposal.


(** ** The Markov jump simulator (gemlib_tfp.distributions.impl.discrete_markov) *)

Module DiscreteMarkov.

Import DiscreteTimeStateTransition.

(** Entry-wise sum of two rows; the shorter one decides the length. *)
Definition row_add (a b : list Z) : list Z := zip_with Z.add a b.

(** The change of one metapopulation's compartments caused by its transition
    counts: the counts times the stoichiometry matrix. *)
Fixpoint row_times_matrix (counts : list Z) (stoichiometry : Tensor2)
    (zero : list Z) : list Z :=
  match counts, stoichiometry with
  | c :: counts', r :: stoichiometry' =>
      row_add (Z.mul c <$> r) (row_times_matrix counts' stoichiometry' zero)
  | _, _ => zero
  end.

(** Step (4): the sampled transition counts are applied to the state through
    the stoichiometry matrix. *)
Definition apply_events (stoichiometry : Tensor2) (state events : Tensor2)
  : Tensor2 :=
  zip_with
    (λ s e, row_add s (row_times_matrix e stoichiometry (const 0 <$> s)))
    state events.

(** The steps [t] in [[start, end)] with spacing [time_step]. *)
Definition time_grid (start end_ time_step : Q) : list Q :=
  let n := Z.to_nat (Qceiling ((end_ - start) / time_step)) in
  (λ i : nat, start + inject_Z (Z.of_nat i) * time_step)%Q <$> seq 0 n.

Section Simulator.

Context {Hazard Seed G : Type}.

(** The random-number primitives of the numerical substrate: splitting a
    seed, taking a seed from the ambient generator when the caller gives
    none, and the draw of one step. [draw_transitions] stands for steps
    (1) to (3): it evaluates the hazards at [(t, state)], converts them into
    event probabilities over [time_step] and allocates the individuals
    leaving each compartment; it returns the counts per metapopulation and
    transition. *)
Variable split_seed : Seed → Seed * Seed.
Variable ambient_seed : G → Seed * G.
Variable draw_transitions :
  Seed → Hazard → Q → Q → Tensor2 → Tensor2 → Tensor2.

(** Modelled from the spec: the loop of the simulator over the time grid.
    The seed is split at every step: one half feeds the draw of the step, the
    other is handed to the next step; the state is advanced by the counts
    drawn, which are recorded. *)
Fixpoint simulate_steps (hazard_fn : Hazard) (time_step : Q)
    (stoichiometry : Tensor2) (seed : Seed) (state : Tensor2)
    (times : list Q) : Tensor3 :=
  match times with
  | [] => []
  | t :: times' =>
      let '(seed_t, seed') := split_seed seed in
      let events := draw_transitions seed_t hazard_fn t time_step state stoichiometry in
      events
        :: simulate_steps hazard_fn time_step stoichiometry seed'
             (apply_events stoichiometry state events) times'
  end.

(** Modelled from the spec: [discrete_markov_simulation(hazard_fn, state,
    start, end, time_step, stoichiometry, seed)] returns the times and the
    event counts per step; the function itself is not part of the sources at
    hand. A seed that is given is the only source of randomness; without one
    the seed comes from the ambient generator. *)
Definition discrete_markov_simulation (hazard_fn : Hazard) (state : Tensor2)
    (start end_ time_step : Q) (stoichiometry : Tensor2) (seed : option Seed)
  : Rand G (list Q * Tensor3) :=
  λ g,
    let '(seed, g) :=
      match seed with
      | Some s => (s, g)
      | None => ambient_seed g
      end in
    let times := time_grid start end_ time_step in
    ((times, simulate_steps hazard_fn time_step stoichiometry seed state times), g).

End Simulator.

End DiscreteMarkov.



(** ** Vocabulary for the properties *)

(** The shape of a rank-3 tensor kept as nested lists: the length of every
    innermost list. *)
Definition shape3 (tensor : Tensor3) : list (list nat) :=
  (λ row : Tensor2, (λ col : list Z, length col) <$> row) <$> tensor.

(** The sum of [g] over a list, and the sum of all entries of a tensor. *)
Definition sum_with {A} (g : A → Z) (l : list A) : Z :=
  foldr (λ a acc, g a + acc) 0 l.

Definition tensor_total (tensor : Tensor3) : Z :=
  sum_with (sum_with (sum_with id)) tensor.

(** An index row names an existing cell of the tensor. *)
Definition in_bounds (tensor : Tensor3) (ix : list Z) : Prop :=
  ∃ m t x : nat,
    ix = [Z.of_nat m; Z.of_nat t; Z.of_nat x] ∧ is_Some (cell tensor m t x).

(** What a scatter-add with these index rows and updates adds to the cell
    (m, t, x): the sum of the updates whose row is that cell. *)
Fixpoint scattered (indices : list (list Z)) (updates : list Z) (m t x : nat)
  : Z :=
  match indices, updates with
  | ix :: indices', v :: updates' =>
      (if decide (ix = [Z.of_nat m; Z.of_nat t; Z.of_nat x]) then v else 0)
      + scattered indices' updates' m t x
  | _, _ => 0
  end.


(** ** occult_events_mh.py on a floating-point event tensor *)

Module Rounded.

Import OccultEventsMH.

(** The value a binary floating-point type with [p] significant bits stores
    for the integer [z]: [z] itself up to [2 ^ p] in magnitude, beyond that
    the nearest multiple of the spacing [2 ^ e] at [z], ties going to the
    even significand. Integers beyond the largest finite value of the type
    are outside this model. *)
Definition round_to_precision (p z : Z) : Z :=
  let a := Z.abs z in
  if a <=? 2 ^ p then z
  else
    let e := Z.log2 a - (p - 1) in
    let q := a / 2 ^ e in
    let r := a mod 2 ^ e in
    let half := 2 ^ (e - 1) in
    let q' :=
      if r <? half then q
      else if half <? r then q + 1
      else if Z.even q then q else q + 1 in
    Z.sgn z * (q' * 2 ^ e).

(** [tf.cast(x, events.dtype)] of an integer tensor. *)
Definition tf_cast (p : Z) (x : list Z) : list Z :=
  round_to_precision p <$> x.

(** One row of [tf.tensor_scatter_nd_add] on a floating-point tensor: the
    sum of the cell and the update is rounded. *)
Definition scatter_add_row (p : Z) (tensor : Tensor3) (ix : list Z) (v : Z)
  : option Tensor3 :=
  match ix with
  | [m; t; x] =>
      im ← zidx m; it ← zidx t; ixx ← zidx x;
      _ ← cell tensor im it ixx;
      Some (alter_cell (λ c, round_to_precision p (c + v)) im it ixx tensor)
  | _ => None
  end.

(** [tf.tensor_scatter_nd_add(tensor, indices, updates)], rows in order. *)
Fixpoint tensor_scatter_nd_add (p : Z) (tensor : Tensor3)
    (indices : list (list Z)) (updates : list Z) : option Tensor3 :=
  match indices, updates with
  | [], [] => Some tensor
  | ix :: indices', v :: updates' =>
      tensor' ← scatter_add_row p tensor ix v;
      tensor_scatter_nd_add p tensor' indices' updates'
  | _, _ => None
  end.

(** [_add_events(events, m, t, x, x_star)]; [x_star] already has the type of
    [events]. *)
Definition _add_events (p : Z) (events : Tensor3) (m t : list Z) (x : IndexArg)
    (x_star : list Z) : option Tensor3 :=
  let x := _maybe_expand_dims x in
  indices ← tf_stack3 m t x;
  tensor_scatter_nd_add p events indices x_star.

Section Kernel.

Context {State : Type}.

Variable AddOccultProposal :
  Tensor3 → Topology → State → Z → option (Z * Z) → option string → Proposal.
Variable DelOccultProposal :
  Tensor3 → Topology → State → option (Z * Z) → Z → Proposal.

(** The number of significant bits of [current_events.dtype]. *)
Variable p : Z.

Implicit Types (k : Kernel State) (events : Tensor3) (update : Update).

(** The closure [add_occult_fn] of [one_step]. *)
Definition add_occult_fn k current_events update
  : option (Update * Tensor3 * Q) :=
  let proposal :=
    AddOccultProposal current_events (topology k) (_initial_state k)
      (nmax k) (t_range k) (name k) in
  next_state ←
    _add_events p current_events (m update) (t update)
      (Scalar (Z.of_nat (target (topology k))))
      (tf_cast p (x_star update));
  let reverse :=
    DelOccultProposal next_state (topology k) (_initial_state k)
      (t_range k) (nmax k) in
  let q_fwd := reduce_sum (log_prob proposal update) in
  let q_rev := reduce_sum (log_prob reverse update) in
  let log_acceptance_correction := (q_rev - q_fwd)%Q in
  Some (update, next_state, log_acceptance_correction).

(** The closure [del_occult_fn] of [one_step]. *)
Definition del_occult_fn k current_events update
  : option (Update * Tensor3 * Q) :=
  let proposal :=
    DelOccultProposal current_events (topology k) (_initial_state k)
      (t_range k) (nmax k) in
  next_state ←
    _add_events p current_events (m update) (t update)
      (Vector [Z.of_nat (target (topology k))])
      (tf_cast p (Z.opp <$> x_star update));
  rev_name ← name_rev k;
  let reverse :=
    AddOccultProposal next_state (topology k) (_initial_state k)
      (nmax k) (t_range k) (Some rev_name) in
  let q_fwd := reduce_sum (log_prob proposal update) in
  let q_rev := reduce_sum (log_prob reverse update) in
  let log_acceptance_correction := (q_rev - q_fwd)%Q in
  Some (update, next_state, log_acceptance_correction).

(** [one_step(current_events, previous_kernel_results)]. *)
Definition one_step k current_events
    (previous_kernel_results : OccultKernelResults) (u : Q) update
  : option (Tensor3 * OccultKernelResults) :=
  branch ← chosen_branch k current_events u;
  '(delta, next_state, log_acceptance_correction) ←
    match branch with
    | Delete => del_occult_fn k current_events update
    | Add => add_occult_fn k current_events update
    end;
  let next_target_log_prob := target_log_prob_fn k next_state in
  Some (next_state,
        {| log_acceptance_correction := log_acceptance_correction;
           target_log_prob := next_target_log_prob;
           extra := m delta ++ t delta ++ x_star delta |}).

End Kernel.

End Rounded.

(** Every entry of the tensor is at most [B] in magnitude. *)
Definition bounded (B : Z) (tensor : Tensor3) : Prop :=
  Forall (Forall (Forall (λ c : Z, Z.abs c ≤ B))) tensor.


(** ** A small instance *)

(** One metapopulation, two time steps, two transitions; the kernel augments
    transition 1 with at most five occult events per cell. *)
Module Example.

Import OccultEventsMH.

Definition total (events : Tensor3) : Z := foldr Z.add 0 (concat (concat events)).

Definition events0 : Tensor3 := [[[3; 0]; [1; 2]]].

Definition add_log_prob (events : Tensor3) (_ : Topology) (_ : unit) (n_max : Z)
    (_ : option (Z * Z)) (_ : Update) : list Q :=
  [(- inject_Z (total events) - inject_Z n_max)%Q].

Definition del_log_prob (events : Tensor3) (_ : Topology) (_ : unit)
    (_ : option (Z * Z)) (_ : Z) (_ : Update) : list Q :=
  [(- inject_Z (total events) / 2)%Q].

Definition AddOccultProposal := OccultProposal.AddOccultProposal add_log_prob.
Definition DelOccultProposal := OccultProposal.DelOccultProposal del_log_prob.

Definition kernel : Kernel unit :=
  {| target_log_prob_fn := λ events, (- inject_Z (total events))%Q;
     topology := {| target := 1 |};
     cumulative_event_offset := tt;
     nmax := 5;
     t_range := None;
     seed := None;
     name := Some "occult"%string |}.

Definition results0 : OccultKernelResults :=
  bootstrap_results kernel events0.

(** The draw "metapopulation 0, time 1, two events". *)
Definition update0 : Update := {| m := [0]; t := [1]; x_star := [2] |}.

(** The state after deleting, respectively adding, that draw. *)
Definition events_del : Tensor3 := [[[3; 0]; [1; 0]]].
Definition events_add : Tensor3 := [[[3; 0]; [1; 4]]].

Definition results_del : OccultKernelResults :=
  {| log_acceptance_correction :=
       (reduce_sum (add_log_prob events_del (topology kernel) tt 5 None update0)
        - reduce_sum (del_log_prob events0 (topology kernel) tt None 5 update0))%Q;
     target_log_prob := target_log_prob_fn kernel events_del;
     extra := [0; 1; 2] |}.

Definition results_add : OccultKernelResults :=
  {| log_acceptance_correction :=
       (reduce_sum (del_log_prob events_add (topology kernel) tt None 5 update0)
        - reduce_sum (add_log_prob events0 (topology kernel) tt 5 None update0))%Q;
     target_log_prob := target_log_prob_fn kernel events_add;
     extra := [0; 1; 2] |}.

(** A toy numerical substrate for the simulator: seeds and the ambient
    generator are counters, and a step draws its own seed as the only count. *)
Definition toy_split (seed : nat) : nat * nat := (seed, S seed).
Definition toy_ambient (g : nat) : nat * nat := (g, S g).
Definition toy_draw (seed : nat) (_ : unit) (_ _ : Q) (_ _ : Tensor2) : Tensor2 :=
  [[Z.of_nat seed]].

Definition toy_model : DiscreteTimeStateTransition.Model unit :=
  {| DiscreteTimeStateTransition.transition_rates := tt;
     DiscreteTimeStateTransition.stoichiometry := [[-1; 1]];
     DiscreteTimeStateTransition.initial_state := [[100; 0]];
     DiscreteTimeStateTransition.initial_step := 0%Q;
     DiscreteTimeStateTransition.time_delta := 1%Q;
     DiscreteTimeStateTransition.num_steps := 2 |}.

(** [_sample_n] of the toy model on the simulator of the spec; gathering is
    the identity. *)
Definition toy_sample (n : nat) (seed : option nat)
  : DiscreteTimeStateTransition.Rand nat (list Tensor3) :=
  DiscreteTimeStateTransition._sample_n
    (DiscreteMarkov.discrete_markov_simulation toy_split toy_ambient toy_draw)
    (λ _, tt) (λ sim _, sim) toy_model n seed.

End Example.

(** An instance at the edge of the integers float64 holds exactly: one cell
    of the target transition holds [2 ^ 53]. *)
Module BigExample.

Import OccultEventsMH.

Definition events_big : Tensor3 := [[[3; 0]; [1; 2 ^ 53]]].

(** The draw "metapopulation 0, time 1, one event". *)
Definition update1 : Update := {| m := [0]; t := [1]; x_star := [1] |}.



End BigExample.

(** * Properties *)

(** ** Tensor lemmas *)

Section TensorFacts.

Implicit Types (events : Tensor3) (f g : Z → Z) (m t x : nat).

Lemma zidx_Some i n : zidx i = Some n ↔ i = Z.of_nat n.
Proof.
  unfold zidx. destruct (Z.leb_spec 0 i); split; intros H'.
  - inversion H'. lia.
  - f_equal. lia.
  - discriminate.
  - lia.
Qed.

Lemma zidx_of_nat n : zidx (Z.of_nat n) = Some n.
Proof. by apply zidx_Some. Qed.

Lemma cell_alter_cell_eq f m t x events :
  cell (alter_cell f m t x events) m t x = f <$> cell events m t x.
Proof.
  unfold cell, alter_cell. rewrite list_lookup_alter_eq.
  destruct (events !! m) as [row|]; simpl; [|done].
  rewrite list_lookup_alter_eq.
  destruct (row !! t) as [col|]; simpl; [|done].
  by rewrite list_lookup_alter_eq.
Qed.

Lemma cell_alter_cell_ne f m t x m' t' x' events :
  (m', t', x') ≠ (m, t, x) →
  cell (alter_cell f m t x events) m' t' x' = cell events m' t' x'.
Proof.
  intros Hne. unfold cell, alter_cell.
  destruct (decide (m = m')) as [<-|Hm]; [|by rewrite list_lookup_alter_ne].
  rewrite list_lookup_alter_eq.
  destruct (events !! m) as [row|]; simpl; [|done].
  destruct (decide (t = t')) as [<-|Ht]; [|by rewrite list_lookup_alter_ne].
  rewrite list_lookup_alter_eq.
  destruct (row !! t) as [col|]; simpl; [|done].
  rewrite list_lookup_alter_ne; [done|]. congruence.
Qed.

Lemma alter_cell_compose f g m t x events :
  alter_cell f m t x (alter_cell g m t x events) = alter_cell (f ∘ g) m t x events.
Proof.
  unfold alter_cell. rewrite list_alter_alter_eq.
  apply list_alter_ext; [|done]. intros row _. simpl.
  rewrite list_alter_alter_eq.
  apply list_alter_ext; [|done]. intros col _. simpl.
  by rewrite list_alter_alter_eq.
Qed.

Lemma alter_cell_id f m t x events :
  (∀ c, f c = c) → alter_cell f m t x events = events.
Proof.
  intros Hf. unfold alter_cell.
  apply list_alter_id. intros row.
  apply list_alter_id. intros col.
  by apply list_alter_id.
Qed.

(** A scatter-add of one row is defined exactly on in-bounds index triples. *)
Lemma scatter_add_row_Some events ix v events' :
  scatter_add_row events ix v = Some events' ↔
  ∃ m t x c, ix = [Z.of_nat m; Z.of_nat t; Z.of_nat x]
    ∧ cell events m t x = Some c
    ∧ events' = alter_cell (λ c, c + v) m t x events.
Proof.
  split.
  - destruct ix as [|a [|b [|c' [|]]]]; simpl; try discriminate.
    destruct (zidx a) as [m|] eqn:Ha; simpl; [|discriminate].
    destruct (zidx b) as [t|] eqn:Hb; simpl; [|discriminate].
    destruct (zidx c') as [x|] eqn:Hc; simpl; [|discriminate].
    destruct (cell events m t x) as [c|] eqn:Hcell; simpl; [|discriminate].
    intros [= <-]. exists m, t, x, c.
    apply zidx_Some in Ha, Hb, Hc. by subst.
  - intros (m & t & x & c & -> & Hcell & ->). simpl.
    rewrite !zidx_of_nat. simpl. by rewrite Hcell.
Qed.

Lemma non_negative_cell events :
  non_negative events ↔ ∀ m t x c, cell events m t x = Some c → 0 ≤ c.
Proof.
  unfold non_negative, cell. rewrite Forall_lookup. split.
  - intros H m t x c Hc.
    destruct (events !! m) as [row|] eqn:Hrow; simpl in Hc; [|done].
    destruct (row !! t) as [col|] eqn:Hcol; simpl in Hc; [|done].
    specialize (H m row Hrow). rewrite Forall_lookup in H.
    specialize (H t col Hcol). rewrite Forall_lookup in H. by apply (H x).
  - intros H m row Hrow. apply Forall_lookup. intros t col Hcol.
    apply Forall_lookup. intros x c Hc. apply (H m t x c).
    rewrite Hrow. simpl. by rewrite Hcol.
Qed.

End TensorFacts.

Section SliceFacts.

Lemma elem_of_concat (z : Z) (s : Tensor2) :
  z ∈ concat s ↔ ∃ i row j, s !! i = Some row ∧ row !! j = Some z.
Proof.
  induction s as [|r s IH]; simpl.
  - split; [by intros ?%elem_of_nil | by intros (i & ? & ? & ? & ?)].
  - rewrite elem_of_app, IH. split.
    + intros [(j & Hj)%list_elem_of_lookup | (i & row & j & Hi & Hj)].
      * by exists 0%nat, r, j.
      * by exists (S i), row, j.
    + intros ([|i] & row & j & Hi & Hj); simpl in Hi.
      * left. injection Hi as ->. apply list_elem_of_lookup. eauto.
      * right. eauto.
Qed.

(** The entries of [events[..., x]] are the cells of [events] at position [x]
    of the last dimension. *)
Lemma slice_last_entries (events : Tensor3) (x : nat) (s : Tensor2) (z : Z) :
  slice_last events x = Some s →
  z ∈ concat s ↔ ∃ m t, cell events m t x = Some z.
Proof.
  unfold slice_last. intros Hs%mapM_Some. rewrite elem_of_concat. split.
  - intros (m & srow & t & Hm & Ht).
    destruct (Forall2_lookup_r _ _ _ _ _ Hs Hm) as (row & Hrow & Hr%mapM_Some).
    destruct (Forall2_lookup_r _ _ _ _ _ Hr Ht) as (col & Hcol & Hz).
    exists m, t. unfold cell. rewrite Hrow. simpl. by rewrite Hcol.
  - intros (m & t & Hc). unfold cell in Hc.
    destruct (events !! m) as [row|] eqn:Hrow; simpl in Hc; [|done].
    destruct (row !! t) as [col|] eqn:Hcol; simpl in Hc; [|done].
    destruct (Forall2_lookup_l _ _ _ _ _ Hs Hrow) as (srow & Hm & Hr%mapM_Some).
    destruct (Forall2_lookup_l _ _ _ _ _ Hr Hcol) as (z' & Ht & Hz).
    exists m, srow, t. split; [done|]. congruence.
Qed.

Lemma count_nonzero_pos (s : Tensor2) :
  (0 < count_nonzero s)%nat ↔ ∃ z, z ∈ concat s ∧ z ≠ 0.
Proof.
  unfold count_nonzero. split.
  - destruct (filter _ (concat s)) as [|z l] eqn:Hf; simpl; [lia|]. intros _.
    assert (Hz : z ∈ filter (λ z : Z, z ≠ 0) (concat s))
      by (rewrite Hf; apply list_elem_of_here).
    apply list_elem_of_filter in Hz as [? ?]. eauto.
  - intros (z & Hz & Hnz).
    assert (Hin : z ∈ filter (λ z : Z, z ≠ 0) (concat s))
      by (by apply list_elem_of_filter).
    destruct (filter _ (concat s)); simpl; [by apply elem_of_nil in Hin | lia].
Qed.

Lemma Qltb_lt (a b : Q) : Qltb a b = true ↔ (a < b)%Q.
Proof.
  unfold Qltb. rewrite negb_true_iff. split.
  - intros H. apply Qnot_le_lt. intros Hle%Qle_bool_iff. congruence.
  - intros Hlt. destruct (Qle_bool b a) eqn:E; [|done].
    apply Qle_bool_iff in E. exfalso. by apply (Qlt_not_le a b).
Qed.


(** Adding [v] to a cell and then [- v] gives the tensor back. *)
Lemma alter_cell_add_opp (events : Tensor3) (m t x : nat) (v : Z) :
  alter_cell (λ c, c + - v) m t x (alter_cell (λ c, c + v) m t x events) = events.
Proof.
  rewrite alter_cell_compose. apply alter_cell_id. intros c. simpl. lia.
Qed.

Lemma alter_cell_opp_add (events : Tensor3) (m t x : nat) (v : Z) :
  alter_cell (λ c, c + v) m t x (alter_cell (λ c, c + - v) m t x events) = events.
Proof.
  rewrite alter_cell_compose. apply alter_cell_id. intros c. simpl. lia.
Qed.

End SliceFacts.


(** ** The occult kernel *)

Import OccultEventsMH.

Section KernelFacts.

Context {State : Type}.
Variable AddOccultProposal :
  Tensor3 → Topology → State → Z → option (Z * Z) → option string → Proposal.
Variable DelOccultProposal :
  Tensor3 → Topology → State → option (Z * Z) → Z → Proposal.

Implicit Types (k : Kernel State) (events : Tensor3) (update : Update).

Local Abbreviation add_occult_fn := (add_occult_fn AddOccultProposal DelOccultProposal).
Local Abbreviation del_occult_fn := (del_occult_fn AddOccultProposal DelOccultProposal).
Local Abbreviation one_step := (one_step AddOccultProposal DelOccultProposal).

(** Both call sites of [_add_events] end up with the one-element index
    [[target]]. *)
Lemma maybe_expand_dims_target (x : Z) :
  _maybe_expand_dims (Scalar x) = _maybe_expand_dims (Vector [x]).
Proof. reflexivity. Qed.

Local Arguments scatter_add_row : simpl never.

(** [_add_events] with a one-element transition index returns exactly when
    [m], [t] and [x_star] hold one entry each and the cell exists; it then
    adds [x_star] to that cell. *)
Lemma add_events_Some events ms ts (x : IndexArg) xs tgt events' :
  _maybe_expand_dims x = [Z.of_nat tgt] →
  _add_events events ms ts x xs = Some events' ↔
  ∃ im it v c, ms = [Z.of_nat im] ∧ ts = [Z.of_nat it] ∧ xs = [v]
    ∧ cell events im it tgt = Some c
    ∧ events' = alter_cell (λ c, c + v) im it tgt events.
Proof.
  intros Hx. unfold _add_events. rewrite Hx. split.
  - destruct ms as [|m0 [|? ?]], ts as [|t0 [|? ?]]; simpl; try discriminate.
    destruct xs as [|v [|? ?]]; simpl; try discriminate.
    + destruct (scatter_add_row events [m0; t0; Z.of_nat tgt] v) as [e|] eqn:He;
        simpl; [|discriminate].
      intros [= <-].
      apply scatter_add_row_Some in He as (im & it & ix & c & Hix & Hc & ->).
      injection Hix as -> -> Hix'. apply Nat2Z.inj in Hix' as <-.
      by exists im, it, v, c.
    + by destruct (scatter_add_row events [m0; t0; Z.of_nat tgt] v).
  - intros (im & it & v & c & -> & -> & -> & Hc & ->). simpl.
    assert (He : scatter_add_row events
                   [Z.of_nat im; Z.of_nat it; Z.of_nat tgt] v
                 = Some (alter_cell (λ c, c + v) im it tgt events))
      by (apply scatter_add_row_Some; by exists im, it, tgt, c).
    by rewrite He.
Qed.

Lemma delete_pred_true (u : Q) (s : Tensor2) :
  delete_pred u s = true ↔ (u < 1 # 2)%Q ∧ ∃ z, z ∈ concat s ∧ z ≠ 0.
Proof.
  unfold delete_pred.
  by rewrite andb_true_iff, Qltb_lt, bool_decide_eq_true, count_nonzero_pos.
Qed.

(** What a returning [one_step] did. *)
Lemma one_step_Some k events prev u update next_state results :
  one_step k events prev u update = Some (next_state, results) →
  ∃ branch lac,
    chosen_branch k events u = Some branch
    ∧ match branch with
      | Add => add_occult_fn k events update
      | Delete => del_occult_fn k events update
      end = Some (update, next_state, lac)
    ∧ results = {| log_acceptance_correction := lac;
                   target_log_prob := target_log_prob_fn k next_state;
                   extra := m update ++ t update ++ x_star update |}.
Proof.
  unfold OccultEventsMH.one_step.
  destruct (chosen_branch k events u) as [branch|]; simpl; [|discriminate].
  intros H. exists branch.
  assert (Hd : ∀ r, match branch with
                    | Add => add_occult_fn k events update
                    | Delete => del_occult_fn k events update
                    end = Some r → r.1.1 = update).
  { intros r. unfold OccultEventsMH.add_occult_fn, OccultEventsMH.del_occult_fn.
    destruct branch;
      repeat (match goal with
              | |- context [?o ≫= _] => destruct o; simpl
              end); try discriminate; by intros [= <-]. }
  destruct (match branch with
            | Add => add_occult_fn k events update
            | Delete => del_occult_fn k events update
            end) as [[[delta next] lac]|]; simpl in H; [|discriminate].
  specialize (Hd _ eq_refl). simpl in Hd. subst delta.
  injection H as <- <-. by exists lac.
Qed.

Lemma add_occult_fn_Some k events update r :
  add_occult_fn k events update = Some r ↔
  ∃ next_state,
    _add_events events (m update) (t update)
      (Scalar (Z.of_nat (target (topology k)))) (x_star update) = Some next_state
    ∧ r = (update, next_state,
           (reduce_sum
              (log_prob (DelOccultProposal next_state (topology k)
                           (_initial_state k) (t_range k) (nmax k)) update)
            - reduce_sum
                (log_prob (AddOccultProposal events (topology k)
                             (_initial_state k) (nmax k) (t_range k) (name k))
                   update))%Q).
Proof.
  unfold OccultEventsMH.add_occult_fn.
  destruct (_add_events _ _ _ _ _) as [next|]; simpl.
  - split; [intros [= <-]; eauto | by intros (? & [= <-] & ->)].
  - split; [discriminate | by intros (? & ? & _)].
Qed.

Lemma del_occult_fn_Some k events update r :
  del_occult_fn k events update = Some r ↔
  ∃ next_state s,
    _add_events events (m update) (t update)
      (Vector [Z.of_nat (target (topology k))]) (Z.opp <$> x_star update)
      = Some next_state
    ∧ name k = Some s
    ∧ r = (update, next_state,
           (reduce_sum
              (log_prob (AddOccultProposal next_state (topology k)
                           (_initial_state k) (nmax k) (t_range k)
                           (Some (s ++ "rev")%string)) update)
            - reduce_sum
                (log_prob (DelOccultProposal events (topology k)
                             (_initial_state k) (t_range k) (nmax k)) update))%Q).
Proof.
  unfold OccultEventsMH.del_occult_fn, name_rev.
  destruct (_add_events _ _ _ _ _) as [next|]; simpl.
  - destruct (name k) as [s|]; simpl.
    + split; [intros [= <-]; eauto | by intros (? & ? & [= <-] & [= <-] & ->)].
    + split; [discriminate | by intros (? & ? & _ & ? & _)].
  - split; [discriminate | by intros (? & ? & ? & _)].
Qed.

(** A returning [one_step] has changed one existing cell of the target
    transition, by [+ x_star] on the add branch and [- x_star] on the delete
    branch. *)
Lemma one_step_alter_cell k events prev u update next_state results :
  one_step k events prev u update = Some (next_state, results) →
  ∃ branch (im it : nat) (x c : Z),
    chosen_branch k events u = Some branch
    ∧ m update = [Z.of_nat im] ∧ t update = [Z.of_nat it] ∧ x_star update = [x]
    ∧ cell events im it (target (topology k)) = Some c
    ∧ next_state
      = alter_cell (λ c, c + match branch with Add => x | Delete => - x end)
          im it (target (topology k)) events.
Proof.
  intros (branch & lac & Hb & Hfn & ->)%one_step_Some.
  exists branch. destruct branch.
  - apply add_occult_fn_Some in Hfn as (next & Hadd & [= -> _]).
    destruct (proj1 (add_events_Some _ _ _
                       (Scalar (Z.of_nat (target (topology k)))) _
                       (target (topology k)) _ eq_refl) Hadd)
      as (im & it & v & c & Hm & Ht & Hx & Hc & ->).
    by exists im, it, v, c.
  - apply del_occult_fn_Some in Hfn as (next & s & Hadd & _ & [= -> _]).
    destruct (proj1 (add_events_Some _ _ _
                       (Vector [Z.of_nat (target (topology k))]) _
                       (target (topology k)) _ eq_refl) Hadd)
      as (im & it & v & c & Hm & Ht & Hx & Hc & ->).
    destruct (x_star update) as [|x [|? ?]] eqn:Hxs; try discriminate.
    injection Hx as <-.
    by exists im, it, x, c.
Qed.

(** [one_step] returns whenever the target slice can be read, the update is
    one triple naming an existing cell of the target transition, and, for the
    delete branch, the kernel has a name. *)
Lemma one_step_returns k events prev u (im it : nat) (x c : Z) (s : string) :
  is_Some (slice_last events (target (topology k))) →
  cell events im it (target (topology k)) = Some c →
  name k = Some s →
  is_Some (one_step k events prev u
             {| m := [Z.of_nat im]; t := [Z.of_nat it]; x_star := [x] |}).
Proof.
  intros [sl Hsl] Hc Hs. unfold OccultEventsMH.one_step, chosen_branch.
  rewrite Hsl. simpl.
  set (update := {| m := [Z.of_nat im]; t := [Z.of_nat it]; x_star := [x] |}).
  destruct (delete_pred u sl).
  - assert (∃ r, del_occult_fn k events update = Some r) as [[[d n] l] ->].
    { eexists. apply del_occult_fn_Some. eexists _, s.
      split; [|split; [done|reflexivity]].
      apply (add_events_Some _ _ _ _ _ (target (topology k))); [done|].
      by exists im, it, (- x), c. }
    by eexists.
  - assert (∃ r, add_occult_fn k events update = Some r) as [[[d n] l] ->].
    { eexists. apply add_occult_fn_Some. eexists.
      split; [|reflexivity].
      apply (add_events_Some _ _ _ _ _ (target (topology k))); [done|].
      by exists im, it, x, c. }
    by eexists.
Qed.

End KernelFacts.

Section KernelClaims.

Context {State : Type}.
Variable AddOccultProposal :
  Tensor3 → Topology → State → Z → option (Z * Z) → option string → Proposal.
Variable DelOccultProposal :
  Tensor3 → Topology → State → option (Z * Z) → Z → Proposal.

Implicit Types (k : Kernel State) (events : Tensor3) (update : Update).

Local Abbreviation add_occult_fn := (add_occult_fn AddOccultProposal DelOccultProposal).
Local Abbreviation del_occult_fn := (del_occult_fn AddOccultProposal DelOccultProposal).
Local Abbreviation one_step := (one_step AddOccultProposal DelOccultProposal).

(** C1. Whenever the target slice of the current event tensor can be read,
    [one_step] runs the delete closure if and only if the uniform variate [u]
    is below one half and some cell of the target transition is non-zero; in
    every other case, in particular when all target counts are zero, it runs
    the add closure. The state [one_step] returns is the one computed by the
    closure so chosen. *)
Theorem C1_delete_branch_iff k events u (target_slice : Tensor2) :
  slice_last events (target (topology k)) = Some target_slice →
  let nonzero_target :=
    ∃ m t z, cell events m t (target (topology k)) = Some z ∧ z ≠ 0 in
  (chosen_branch k events u = Some Delete ↔ (u < 1 # 2)%Q ∧ nonzero_target)
  ∧ (chosen_branch k events u = Some Add ↔ ¬ ((u < 1 # 2)%Q ∧ nonzero_target))
  ∧ ((∀ m t z, cell events m t (target (topology k)) = Some z → z = 0) →
     chosen_branch k events u = Some Add)
  ∧ ∀ prev update,
      fst <$> one_step k events prev u update
      = (λ r, r.1.2) <$>
          (if bool_decide (chosen_branch k events u = Some Delete)
           then del_occult_fn k events update
           else add_occult_fn k events update).
Proof.
  intros Hs nonzero_target.
  assert (Hnz : (∃ z, z ∈ concat target_slice ∧ z ≠ 0) ↔ nonzero_target).
  { unfold nonzero_target. split.
    - intros (z & Hz & Hne).
      apply (slice_last_entries _ _ _ _ Hs) in Hz as (m0 & t0 & Hc). eauto.
    - intros (m0 & t0 & z & Hc & Hne). exists z. split; [|done].
      apply (slice_last_entries _ _ _ _ Hs). eauto. }
  assert (Hdel : chosen_branch k events u = Some Delete
                 ↔ (u < 1 # 2)%Q ∧ nonzero_target).
  { unfold chosen_branch. rewrite Hs. simpl. rewrite <- Hnz, <- delete_pred_true.
    destruct (delete_pred u target_slice); split; congruence. }
  assert (Hadd : chosen_branch k events u = Some Add
                 ↔ ¬ ((u < 1 # 2)%Q ∧ nonzero_target)).
  { rewrite <- Hdel. unfold chosen_branch. rewrite Hs. simpl.
    destruct (delete_pred u target_slice); split; congruence. }
  split; [done|]. split; [done|]. split.
  - intros Hzero. apply Hadd. intros (_ & m0 & t0 & z & Hc & Hne).
    apply Hne. eauto.
  - intros prev update. unfold OccultEventsMH.one_step.
    destruct (chosen_branch k events u) as [[|]|] eqn:Hb.
    + rewrite bool_decide_eq_false_2 by discriminate. simpl.
      by destruct (add_occult_fn k events update) as [[[? ?] ?]|].
    + rewrite bool_decide_eq_true_2 by done. simpl.
      by destruct (del_occult_fn k events update) as [[[? ?] ?]|].
    + unfold chosen_branch in Hb. by rewrite Hs in Hb.
Qed.

(** C2. When [one_step] returns, the reverse proposal was built on the state
    it returns: after an add it is the delete proposal on [next_state], after
    a delete the add proposal on [next_state]; and the correction it reports
    is the log density of the sampled update under that reverse proposal
    minus its log density under the forward proposal, which was built on the
    current state. *)
Theorem C2_correction_is_reverse_minus_forward
    k events prev u update next_state results :
  one_step k events prev u update = Some (next_state, results) →
  ∃ branch,
    chosen_branch k events u = Some branch
    ∧ match branch with
      | Add =>
          log_acceptance_correction results
          = (reduce_sum
               (log_prob (DelOccultProposal next_state (topology k)
                            (_initial_state k) (t_range k) (nmax k)) update)
             - reduce_sum
                 (log_prob (AddOccultProposal events (topology k)
                              (_initial_state k) (nmax k) (t_range k) (name k))
                    update))%Q
      | Delete =>
          ∃ s, name k = Some s
            ∧ log_acceptance_correction results
              = (reduce_sum
                   (log_prob (AddOccultProposal next_state (topology k)
                                (_initial_state k) (nmax k) (t_range k)
                                (Some (s ++ "rev")%string)) update)
                 - reduce_sum
                     (log_prob (DelOccultProposal events (topology k)
                                  (_initial_state k) (t_range k) (nmax k))
                        update))%Q
      end.
Proof.
  intros (branch & lac & Hb & Hfn & ->)%one_step_Some.
  exists branch. split; [done|]. destruct branch; simpl.
  - apply add_occult_fn_Some in Hfn as (next & _ & [= -> ->]). done.
  - apply del_occult_fn_Some in Hfn as (next & s & _ & Hs & [= -> ->]). eauto.
Qed.


End KernelClaims.

Lemma C1_delete_branch_iff_witness :
  slice_last Example.events0 (target (topology Example.kernel)) = Some [[0; 2]]
  ∧ chosen_branch Example.kernel Example.events0 (1 # 4) = Some Delete
  ∧ chosen_branch Example.kernel Example.events0 (3 # 4) = Some Add.
Proof.
  split; [reflexivity|]. split.
  - apply (C1_delete_branch_iff Example.AddOccultProposal
             Example.DelOccultProposal Example.kernel Example.events0
             (1 # 4)%Q [[0; 2]] eq_refl).
    split; [reflexivity|].
    exists 0%nat, 1%nat, 2. split; [reflexivity | lia].
  - apply (proj1 (proj2 (C1_delete_branch_iff Example.AddOccultProposal
             Example.DelOccultProposal Example.kernel Example.events0
             (3 # 4)%Q [[0; 2]] eq_refl))).
    intros [Hlt _]. by vm_compute in Hlt.
Defined.

Lemma C2_correction_is_reverse_minus_forward_witness :
  one_step Example.AddOccultProposal Example.DelOccultProposal Example.kernel
    Example.events0 Example.results0 (1 # 4) Example.update0
  = Some (Example.events_del, Example.results_del)
  ∧ log_acceptance_correction Example.results_del
    = (reduce_sum
         (log_prob (Example.AddOccultProposal Example.events_del
                      (topology Example.kernel) tt 5 None
                      (Some "occultrev"%string)) Example.update0)
       - reduce_sum
           (log_prob (Example.DelOccultProposal Example.events0
                        (topology Example.kernel) tt None 5) Example.update0))%Q.
Proof.
  split; [reflexivity|].
  destruct (C2_correction_is_reverse_minus_forward
              Example.AddOccultProposal Example.DelOccultProposal
              Example.kernel Example.events0 Example.results0 (1 # 4)
              Example.update0 Example.events_del Example.results_del eq_refl)
    as ([|] & Hb & H).
  - discriminate Hb.
  - destruct H as (s & [= <-] & H). exact H.
Defined.

(** ** The kernel with the proposal pair of the spec *)

Section ProposalFacts.

Implicit Types (events : Tensor3) (update : Update).

Lemma AddOccultProposal_support_inv events topology n_max t_range update :
  OccultProposal.AddOccultProposal_support events topology n_max t_range update
    = true →
  ∃ (im it : nat) (x c : Z),
    m update = [Z.of_nat im] ∧ t update = [Z.of_nat it] ∧ x_star update = [x]
    ∧ cell events im it (target topology) = Some c
    ∧ OccultProposal.in_t_range t_range (Z.of_nat it) = true
    ∧ 0 ≤ x ≤ n_max.
Proof.
  unfold OccultProposal.AddOccultProposal_support.
  destruct (m update) as [|m0 [|? ?]]; try discriminate.
  destruct (t update) as [|t0 [|? ?]]; try discriminate.
  destruct (x_star update) as [|x0 [|? ?]]; try discriminate.
  destruct (zidx m0) as [im|] eqn:Hm; [|discriminate].
  destruct (zidx t0) as [it|] eqn:Ht; [|discriminate].
  apply zidx_Some in Hm as ->. apply zidx_Some in Ht as ->.
  rewrite !andb_true_iff, bool_decide_eq_true, Z.leb_le, Z.leb_le.
  intros ((([c Hc] & Hr) & Hlo) & Hhi).
  exists im, it, x0, c. repeat split; done.
Qed.

Lemma DelOccultProposal_support_inv events topology t_range update :
  OccultProposal.DelOccultProposal_support events topology t_range update
    = true →
  ∃ (im it : nat) (x c : Z),
    m update = [Z.of_nat im] ∧ t update = [Z.of_nat it] ∧ x_star update = [x]
    ∧ cell events im it (target topology) = Some c
    ∧ OccultProposal.in_t_range t_range (Z.of_nat it) = true
    ∧ 0 ≤ x ≤ c.
Proof.
  unfold OccultProposal.DelOccultProposal_support.
  destruct (m update) as [|m0 [|? ?]]; try discriminate.
  destruct (t update) as [|t0 [|? ?]]; try discriminate.
  destruct (x_star update) as [|x0 [|? ?]]; try discriminate.
  destruct (zidx m0) as [im|] eqn:Hm; [|discriminate].
  destruct (zidx t0) as [it|] eqn:Ht; [|discriminate].
  apply zidx_Some in Hm as ->. apply zidx_Some in Ht as ->.
  destruct (cell events im it (target topology)) as [c|] eqn:Hc; [|discriminate].
  rewrite !andb_true_iff, Z.leb_le, Z.leb_le.
  intros ((Hr & Hlo) & Hhi).
  exists im, it, x0, c. repeat split; done.
Qed.

End ProposalFacts.

Section SpecKernelClaims.

Context {State : Type}.
Variable add_log_prob :
  Tensor3 → Topology → State → Z → option (Z * Z) → Update → list Q.
Variable del_log_prob :
  Tensor3 → Topology → State → option (Z * Z) → Z → Update → list Q.

Implicit Types (k : Kernel State) (events : Tensor3) (update : Update).

Local Abbreviation AddP := (OccultProposal.AddOccultProposal add_log_prob).
Local Abbreviation DelP := (OccultProposal.DelOccultProposal del_log_prob).

(** One transition of the kernel: the sampled triple, the cell it names, and
    the bound the forward proposal puts on the count. *)
Lemma kernel_step_inv k events branch update next_state results :
  kernel_step AddP DelP k events branch update next_state results →
  ∃ (im it : nat) (x c : Z),
    m update = [Z.of_nat im] ∧ t update = [Z.of_nat it] ∧ x_star update = [x]
    ∧ extra results = [Z.of_nat im; Z.of_nat it; x]
    ∧ cell events im it (target (topology k)) = Some c
    ∧ 0 ≤ x
    ∧ match branch with Add => x ≤ nmax k | Delete => x ≤ c end
    ∧ next_state
      = alter_cell (λ c, c + match branch with Add => x | Delete => - x end)
          im it (target (topology k)) events.
Proof.
  intros [prev u b upd next res Hb Hs Hstep].
  pose proof Hstep as (lac_b & lac & Hb' & _ & Hres)%one_step_Some.
  apply one_step_alter_cell in Hstep
    as (b' & im & it & x & c & Hb'' & Hm & Ht & Hx & Hc & ->).
  assert (b' = b) as -> by congruence.
  exists im, it, x, c.
  assert (Hbound : 0 ≤ x ∧ match b with Add => x ≤ nmax k | Delete => x ≤ c end).
  { destruct b; simpl in Hs.
    - apply AddOccultProposal_support_inv in Hs
        as (im' & it' & x' & c' & Hm' & Ht' & Hx' & Hc' & _ & Hle).
      assert (x' = x) as -> by congruence. lia.
    - apply DelOccultProposal_support_inv in Hs
        as (im' & it' & x' & c' & Hm' & Ht' & Hx' & Hc' & _ & Hle).
      assert (x' = x) as -> by congruence.
      assert (im' = im) as -> by (apply Nat2Z.inj; congruence).
      assert (it' = it) as -> by (apply Nat2Z.inj; congruence).
      assert (c' = c) as -> by congruence. lia. }
  repeat split; try done; try apply Hbound.
  subst res. simpl. by rewrite Hm, Ht, Hx.
Qed.

(** C3. With proposals that sample as the spec says, every event tensor a
    chain of [one_step] calls reaches from a tensor without negative entries
    has no negative entry: an add raises a cell by a count that is at least
    zero, a delete lowers a cell by no more than it holds. *)
Theorem C3_counts_stay_non_negative k (init_events events : Tensor3) :
  non_negative init_events →
  reachable AddP DelP k init_events events →
  non_negative events.
Proof.
  intros Hinit Hreach.
  induction Hreach as [|events branch update next_state results _ IH Hstep];
    [done|].
  apply kernel_step_inv in Hstep
    as (im & it & x & c & _ & _ & _ & _ & Hc & Hx0 & Hbound & ->).
  rewrite non_negative_cell in IH. apply non_negative_cell.
  intros m' t' x' c' Hc'.
  destruct (decide ((m', t', x') = (im, it, target (topology k))))
    as [[= -> -> ->]|Hne].
  - rewrite cell_alter_cell_eq, Hc in Hc'. injection Hc' as <-.
    pose proof (IH _ _ _ _ Hc). destruct branch; lia.
  - rewrite cell_alter_cell_ne in Hc' by done. by eapply IH.
Qed.

(** C6. With proposals that sample as the spec says, the count [x_star]
    drawn in a [one_step] call, which the call reports as the last entry of
    [extra], is at most [nmax] on the add branch and at most the count held
    by the sampled cell of the current tensor on the delete branch. *)
Theorem C6_occult_cap k events branch update next_state results :
  kernel_step AddP DelP k events branch update next_state results →
  ∃ (im it : nat) (x c : Z),
    m update = [Z.of_nat im] ∧ t update = [Z.of_nat it] ∧ x_star update = [x]
    ∧ extra results = [Z.of_nat im; Z.of_nat it; x]
    ∧ cell events im it (target (topology k)) = Some c
    ∧ match branch with Add => x ≤ nmax k | Delete => x ≤ c end.
Proof.
  intros (im & it & x & c & Hm & Ht & Hx & He & Hc & _ & Hb & _)%kernel_step_inv.
  by exists im, it, x, c.
Qed.

End SpecKernelClaims.

(** The delete step and the add step of the small instance. *)
Lemma example_step_del :
  kernel_step Example.AddOccultProposal Example.DelOccultProposal
    Example.kernel Example.events0 Delete Example.update0
    Example.events_del Example.results_del.
Proof. by apply (kernel_step_intro _ _ _ _ Example.results0 (1 # 4)%Q). Qed.

Lemma example_step_add :
  kernel_step Example.AddOccultProposal Example.DelOccultProposal
    Example.kernel Example.events0 Add Example.update0
    Example.events_add Example.results_add.
Proof. by apply (kernel_step_intro _ _ _ _ Example.results0 (3 # 4)%Q). Qed.

Lemma C3_counts_stay_non_negative_witness :
  non_negative Example.events0
  ∧ reachable Example.AddOccultProposal Example.DelOccultProposal
      Example.kernel Example.events0 Example.events_del
  ∧ non_negative Example.events_del.
Proof.
  assert (H0 : non_negative Example.events0)
    by (repeat constructor; discriminate).
  assert (Hr : reachable Example.AddOccultProposal Example.DelOccultProposal
                 Example.kernel Example.events0 Example.events_del)
    by (eapply reachable_step; [apply reachable_init | apply example_step_del]).
  split; [exact H0|]. split; [exact Hr|].
  exact (C3_counts_stay_non_negative Example.add_log_prob Example.del_log_prob
           Example.kernel Example.events0 Example.events_del H0 Hr).
Defined.

Lemma C6_occult_cap_witness :
  kernel_step Example.AddOccultProposal Example.DelOccultProposal
    Example.kernel Example.events0 Add Example.update0
    Example.events_add Example.results_add
  ∧ ∃ x : Z, x_star Example.update0 = [x] ∧ x ≤ nmax Example.kernel.
Proof.
  split; [apply example_step_add|].
  destruct (C6_occult_cap Example.add_log_prob Example.del_log_prob
              Example.kernel Example.events0 Add Example.update0
              Example.events_add Example.results_add example_step_add)
    as (im & it & x & c & _ & _ & Hx & _ & _ & Hle).
  by exists x.
Defined.


(** ** The discrete-time state transition model *)

Import DiscreteTimeStateTransition.

Section ModelClaims.

Context {Hazard Seed Sim Coords G : Type}.
Variable discrete_markov_simulation :
  Hazard → Tensor2 → Q → Q → Q → Tensor2 → option Seed → Rand G (list Q * Sim).
Variable transition_coords : Tensor2 → Coords.
Variable batch_gather : Sim → Coords → Tensor3.

Implicit Types (self : Model Hazard).

Local Abbreviation _sample_n :=
  (_sample_n discrete_markov_simulation transition_coords batch_gather).

(** C8. The event shape of a model is [[M, num_steps, R]], with [M] the first
    dimension of [initial_state] and [R] the first dimension of
    [stoichiometry]: metapopulation, time, transition. The batch shape is the
    empty shape of a scalar. *)
Theorem C8_event_and_batch_shape self :
  _event_shape self
  = [ Some (length (initial_state self));
      Some (num_steps self);
      Some (length (stoichiometry self)) ]
  ∧ _batch_shape self = [].
Proof. split; reflexivity. Qed.

(** C10. Whatever [n] and [seed] are, [_sample_n] returns a tensor whose
    leading dimension is 1, and [n] has no influence on what it returns. *)
Theorem C10_sample_n_returns_one_trajectory self (n n' : nat)
    (seed : option Seed) (g : G) :
  length (_sample_n self n seed g).1 = 1%nat
  ∧ _sample_n self n seed g = _sample_n self n' seed g.
Proof.
  unfold DiscreteTimeStateTransition._sample_n.
  by destruct (discrete_markov_simulation _ _ _ _ _ _ seed g) as [[times sim] g'].
Qed.

End ModelClaims.

Section SimulatorClaims.

Context {Hazard Seed Coords G : Type}.
Variable split_seed : Seed → Seed * Seed.
Variable ambient_seed : G → Seed * G.
Variable draw_transitions :
  Seed → Hazard → Q → Q → Tensor2 → Tensor2 → Tensor2.
Variable transition_coords : Tensor2 → Coords.
Variable batch_gather : Tensor3 → Coords → Tensor3.

Implicit Types (self : Model Hazard).

Local Abbreviation simulation :=
  (DiscreteMarkov.discrete_markov_simulation
     split_seed ambient_seed draw_transitions).
Local Abbreviation _sample_n :=
  (_sample_n simulation transition_coords batch_gather).

(** The grid from [start] to [start + n * time_step] has [n] steps when the
    step is positive. *)
Lemma time_grid_length (start time_step : Q) (n : nat) :
  (0 < time_step)%Q →
  length (DiscreteMarkov.time_grid start
            (start + inject_Z (Z.of_nat n) * time_step) time_step) = n.
Proof.
  intros Hd. unfold DiscreteMarkov.time_grid.
  rewrite length_fmap, length_seq.
  assert (H : ((start + inject_Z (Z.of_nat n) * time_step - start) / time_step
               == inject_Z (Z.of_nat n))%Q).
  { field. intros E. rewrite E in Hd. discriminate. }
  rewrite (Qceiling_comp _ _ H), Qceiling_Z. apply Nat2Z.id.
Qed.

(** The simulator records one entry per step of the grid. *)
Lemma simulate_steps_length hazard_fn time_step stoichiometry (s : Seed)
    (state : Tensor2) (times : list Q) :
  length (DiscreteMarkov.simulate_steps split_seed draw_transitions hazard_fn
            time_step stoichiometry s state times) = length times.
Proof.
  revert s state. induction times as [|t0 times IH]; intros s state; simpl;
    [done|].
  destruct (split_seed s) as [seed_t seed']. simpl. by rewrite IH.
Qed.

(** With a positive [time_delta], the simulation that [_sample_n] asks for
    runs over [num_steps] steps, the time entry of [_event_shape]. *)
Lemma simulation_num_steps self (seed : option Seed) (g : G) :
  (0 < time_delta self)%Q →
  _event_shape self !! 1%nat
  = Some (Some (length
      (simulation (transition_rates self) (initial_state self)
         (initial_step self)
         (initial_step self
          + inject_Z (Z.of_nat (num_steps self)) * time_delta self)%Q
         (time_delta self) (stoichiometry self) seed g).1.2)).
Proof.
  intros Hd. unfold DiscreteMarkov.discrete_markov_simulation.
  destruct (match seed with Some s => (s, g) | None => ambient_seed g end)
    as [s g'].
  simpl. by rewrite simulate_steps_length, time_grid_length.
Qed.

End SimulatorClaims.

(** Without a seed the draws come from the ambient generator, and two calls
    in a row differ. *)
Example unseeded_calls_differ :
  (Example.toy_sample 1 None 0%nat).1
  ≠ (Example.toy_sample 1 None (Example.toy_sample 1 None 0%nat).2).1.
Proof. vm_compute. discriminate. Qed.

Example seeded_call :
  (Example.toy_sample 1 (Some 7%nat) 0%nat).1 = [[[[7]; [8]]]].
Proof. vm_compute. reflexivity. Qed.


(** * Further properties of the code *)

(** ** Scatter-add on nested lists *)

Section ScatterFacts.

Implicit Types (events : Tensor3) (f g : Z → Z) (m t x : nat).

Lemma fmap_alter_invariant {A B} (F : A → B) (G : A → A) (i : nat) (l : list A) :
  (∀ a, F (G a) = F a) → F <$> alter G i l = F <$> l.
Proof.
  intros H. rewrite (list_fmap_alter F G id).
  - by apply list_alter_id.
  - apply Forall_forall. intros a _. apply H.
Qed.

Lemma shape3_alter_cell f m t x events :
  shape3 (alter_cell f m t x events) = shape3 events.
Proof.
  unfold shape3, alter_cell.
  apply fmap_alter_invariant. intros row.
  apply fmap_alter_invariant. intros col. apply length_alter.
Qed.

(** Two tensors of the same shape with the same cells are equal. *)
Lemma tensor_ext (e1 e2 : Tensor3) :
  shape3 e1 = shape3 e2 →
  (∀ m t x, cell e1 m t x = cell e2 m t x) →
  e1 = e2.
Proof.
  intros Hs Hc. apply list_eq. intros m.
  assert (Hm : shape3 e1 !! m = shape3 e2 !! m) by (by rewrite Hs).
  unfold shape3 in Hm. rewrite !list_lookup_fmap in Hm.
  destruct (e1 !! m) as [r1|] eqn:E1, (e2 !! m) as [r2|] eqn:E2;
    simpl in Hm; try done.
  injection Hm as Hm. f_equal. apply list_eq. intros t.
  assert (Ht : ((λ col : list Z, length col) <$> r1) !! t
               = ((λ col : list Z, length col) <$> r2) !! t)
    by (by rewrite Hm).
  rewrite !list_lookup_fmap in Ht.
  destruct (r1 !! t) as [c1|] eqn:T1, (r2 !! t) as [c2|] eqn:T2;
    simpl in Ht; try done.
  f_equal. apply list_eq. intros x.
  specialize (Hc m t x). unfold cell in Hc.
  rewrite E1, E2 in Hc. simpl in Hc. by rewrite T1, T2 in Hc.
Qed.

Lemma index_row_inj (m t x m' t' x' : nat) :
  [Z.of_nat m; Z.of_nat t; Z.of_nat x] = [Z.of_nat m'; Z.of_nat t'; Z.of_nat x']
  ↔ (m, t, x) = (m', t', x').
Proof.
  split.
  - intros [= Hm%Nat2Z.inj Ht%Nat2Z.inj Hx%Nat2Z.inj]. by subst.
  - by intros [= -> -> ->].
Qed.

(** One row of a scatter-add keeps the shape and adds its update to the cell
    it names. *)
Lemma scatter_add_row_cells events ix v events' :
  scatter_add_row events ix v = Some events' →
  shape3 events' = shape3 events
  ∧ ∀ m t x,
      cell events' m t x
      = (λ c, c + if decide (ix = [Z.of_nat m; Z.of_nat t; Z.of_nat x])
                  then v else 0) <$> cell events m t x.
Proof.
  intros (m0 & t0 & x0 & c & -> & Hc & ->)%scatter_add_row_Some.
  split; [apply shape3_alter_cell|]. intros m t x.
  destruct (decide (_ = _)) as [Heq|Hne].
  - apply index_row_inj in Heq as [= <- <- <-]. apply cell_alter_cell_eq.
  - rewrite cell_alter_cell_ne.
    + destruct (cell events m t x); simpl; [f_equal; lia | done].
    + intros Heq. apply Hne. by apply index_row_inj.
Qed.

Lemma in_bounds_same_cells (e1 e2 : Tensor3) (ix : list Z) :
  (∀ m t x, is_Some (cell e1 m t x) ↔ is_Some (cell e2 m t x)) →
  in_bounds e1 ix ↔ in_bounds e2 ix.
Proof.
  intros H. unfold in_bounds.
  split; intros (m & t & x & -> & Hc); exists m, t, x; split; try done;
    by apply H.
Qed.

Lemma scatter_add_row_is_Some events ix v :
  is_Some (scatter_add_row events ix v) ↔ in_bounds events ix.
Proof.
  split.
  - intros [e' (m & t & x & c & -> & Hc & _)%scatter_add_row_Some].
    exists m, t, x. by rewrite Hc.
  - intros (m & t & x & -> & [c Hc]). eexists.
    apply scatter_add_row_Some. by exists m, t, x, c.
Qed.

(** A scatter-add keeps the shape; each cell grows by the sum of the updates
    whose index row names it. *)
Lemma tensor_scatter_nd_add_cells events indices updates events' :
  tensor_scatter_nd_add events indices updates = Some events' →
  shape3 events' = shape3 events
  ∧ ∀ m t x,
      cell events' m t x
      = (λ c, c + scattered indices updates m t x) <$> cell events m t x.
Proof.
  revert events updates.
  induction indices as [|ix indices IH]; intros events [|v updates]; simpl;
    try discriminate.
  - intros [= <-]. split; [done|]. intros m t x.
    destruct (cell events m t x); simpl; [f_equal; lia | done].
  - destruct (scatter_add_row events ix v) as [e1|] eqn:Hrow; simpl;
      [|discriminate].
    intros Hrest. apply scatter_add_row_cells in Hrow as [Hs1 Hc1].
    apply IH in Hrest as [Hs Hc]. split; [congruence|]. intros m t x.
    rewrite Hc, Hc1. destruct (cell events m t x); simpl; [f_equal; lia | done].
Qed.

(** A scatter-add is defined exactly when there is one update per index row
    and every index row names an existing cell. *)
Lemma tensor_scatter_nd_add_is_Some events indices updates :
  is_Some (tensor_scatter_nd_add events indices updates)
  ↔ length indices = length updates ∧ Forall (in_bounds events) indices.
Proof.
  revert events updates.
  induction indices as [|ix indices IH]; intros events [|v updates]; simpl.
  - split; [by intros _ | by intros _; eexists].
  - split; [by intros [? ?] | by intros [? _]].
  - split; [by intros [? ?] | by intros [? _]].
  - rewrite Forall_cons. destruct (scatter_add_row events ix v) as [e1|] eqn:Hrow;
      simpl.
    + rewrite IH.
      assert (Hin : in_bounds events ix)
        by (apply (scatter_add_row_is_Some _ _ v); by rewrite Hrow).
      apply scatter_add_row_cells in Hrow as [_ Hc1].
      assert (Hsame : Forall (in_bounds e1) indices
                      ↔ Forall (in_bounds events) indices).
      { apply Forall_proper; [|done]. intros ix'. apply in_bounds_same_cells.
        intros m t x. rewrite Hc1. apply fmap_is_Some. }
      rewrite Hsame. split; [intros [? ?]; split; [lia|done] | intros [? [_ ?]]; split; [lia|done]].
    + split; [by intros [? ?]|]. intros [_ [Hin _]].
      apply (scatter_add_row_is_Some _ _ v) in Hin. rewrite Hrow in Hin.
      by destruct Hin.
Qed.

Lemma sum_with_cons {A} (h : A → Z) (a : A) (l : list A) :
  sum_with h (a :: l) = h a + sum_with h l.
Proof. reflexivity. Qed.

Lemma sum_with_alter {A} (h : A → Z) (F : A → A) (i : nat) (l : list A) (a : A)
    (d : Z) :
  l !! i = Some a → h (F a) = h a + d →
  sum_with h (alter F i l) = sum_with h l + d.
Proof.
  revert i. induction l as [|b l IH]; intros [|i] Hi Hd; try discriminate.
  - injection Hi as ->.
    change (alter F 0%nat (a :: l)) with (F a :: l).
    rewrite !sum_with_cons. lia.
  - change (alter F (S i) (b :: l)) with (b :: alter F i l).
    rewrite !sum_with_cons, (IH i Hi Hd). lia.
Qed.

Lemma tensor_total_alter_cell events m t x c v :
  cell events m t x = Some c →
  tensor_total (alter_cell (λ c, c + v) m t x events) = tensor_total events + v.
Proof.
  unfold cell, tensor_total, alter_cell. intros Hc.
  destruct (events !! m) as [row|] eqn:Hrow; simpl in Hc; [|done].
  destruct (row !! t) as [col|] eqn:Hcol; simpl in Hc; [|done].
  apply (sum_with_alter _ _ _ _ row); [done|].
  apply (sum_with_alter _ _ _ _ col); [done|].
  by apply (sum_with_alter _ _ _ _ c).
Qed.

Lemma tensor_scatter_nd_add_total events indices updates events' :
  tensor_scatter_nd_add events indices updates = Some events' →
  tensor_total events' = tensor_total events + sum_with id updates.
Proof.
  revert events updates.
  induction indices as [|ix indices IH]; intros events [|v updates]; simpl;
    try discriminate.
  - intros [= <-]. unfold sum_with. simpl. lia.
  - destruct (scatter_add_row events ix v) as [e1|] eqn:Hrow; simpl;
      [|discriminate].
    intros Hrest. apply IH in Hrest. rewrite Hrest.
    apply scatter_add_row_Some in Hrow as (m & t & x & c & _ & Hc & ->).
    rewrite (tensor_total_alter_cell _ _ _ _ c) by done.
    unfold sum_with. simpl. unfold id. lia.
Qed.

Lemma scattered_opp indices updates m t x :
  scattered indices (Z.opp <$> updates) m t x = - scattered indices updates m t x.
Proof.
  revert updates. induction indices as [|ix indices IH]; intros [|v updates];
    simpl; try done.
  rewrite IH. destruct (decide _); lia.
Qed.

End ScatterFacts.


(** ** [_add_events] on index lists of any length *)

Section AddEventsFacts.

Implicit Types (events : Tensor3) (ms ts xs : list Z) (x : IndexArg).

Lemma tf_stack3_is_Some ms ts (xs' : list Z) :
  is_Some (tf_stack3 ms ts xs')
  ↔ length ms = length ts ∧ length ts = length xs'.
Proof.
  revert ts xs'. induction ms as [|mi ms IH]; intros [|ti ts] [|xi xs']; simpl;
    try (split; [by intros [? ?] | intros [? ?]; discriminate]).
  - split; [done | by eexists].
  - specialize (IH ts xs'). destruct (tf_stack3 ms ts xs') as [rest|]; simpl.
    + split; [|by eexists]. intros _.
      destruct (proj1 IH) as [-> ->]; [by eexists | done].
    + split; [by intros [? ?]|]. intros [[=] [=]].
      destruct (proj2 IH) as [? ?]; done.
Qed.

Lemma tf_stack3_rows ms ts (xs' : list Z) rows :
  tf_stack3 ms ts xs' = Some rows →
  length rows = length ms
  ∧ ∀ i row,
      rows !! i = Some row
      ↔ ∃ mi ti xi, ms !! i = Some mi ∧ ts !! i = Some ti ∧ xs' !! i = Some xi
          ∧ row = [mi; ti; xi].
Proof.
  revert ts xs' rows.
  induction ms as [|mi ms IH]; intros [|ti ts] [|xi xs'] rows; simpl;
    try discriminate.
  - intros [= <-]. split; [done|]. intros i row. split; [done|].
    by intros (? & ? & ? & ? & _).
  - destruct (tf_stack3 ms ts xs') as [rest|] eqn:Hrest; simpl; [|discriminate].
    intros [= <-]. destruct (IH _ _ _ Hrest) as [Hlen Hrows].
    split; [simpl; by rewrite Hlen|]. intros [|i] row; simpl.
    + split.
      * intros [= <-]. by exists mi, ti, xi.
      * by intros (? & ? & ? & [= <-] & [= <-] & [= <-] & ->).
    + apply Hrows.
Qed.

(** What one cell gains from a scatter-add does not depend on cells'
    contents, so presence of cells is kept. *)
Lemma scatter_in_bounds events indices updates events' (ix : list Z) :
  tensor_scatter_nd_add events indices updates = Some events' →
  in_bounds events' ix ↔ in_bounds events ix.
Proof.
  intros [_ Hc]%tensor_scatter_nd_add_cells.
  apply in_bounds_same_cells. intros m t x. rewrite Hc. apply fmap_is_Some.
Qed.

Lemma scatter_round_trip events indices updates events' :
  tensor_scatter_nd_add events indices updates = Some events' →
  tensor_scatter_nd_add events' indices (Z.opp <$> updates) = Some events.
Proof.
  intros H.
  assert (Hsome : is_Some (tensor_scatter_nd_add events' indices
                             (Z.opp <$> updates))).
  { apply tensor_scatter_nd_add_is_Some.
    destruct (proj1 (tensor_scatter_nd_add_is_Some events indices updates))
      as [Hlen Hin]; [by rewrite H|].
    split; [by rewrite length_fmap|].
    eapply Forall_impl; [exact Hin|]. intros ix Hix.
    by apply (scatter_in_bounds _ _ _ _ ix H). }
  destruct Hsome as [e2 He2]. rewrite He2. f_equal.
  apply tensor_scatter_nd_add_cells in H as [Hs Hc].
  apply tensor_scatter_nd_add_cells in He2 as [Hs2 Hc2].
  apply tensor_ext; [congruence|]. intros m t x.
  rewrite Hc2, Hc, scattered_opp.
  destruct (cell events m t x); simpl; [f_equal; lia | done].
Qed.

Lemma scatter_commute events i1 v1 i2 v2 e1 e2 :
  tensor_scatter_nd_add events i1 v1 = Some e1 →
  tensor_scatter_nd_add e1 i2 v2 = Some e2 →
  ∃ e1', tensor_scatter_nd_add events i2 v2 = Some e1'
    ∧ tensor_scatter_nd_add e1' i1 v1 = Some e2.
Proof.
  intros H1 H2.
  destruct (proj1 (tensor_scatter_nd_add_is_Some events i1 v1))
    as [Hlen1 Hin1]; [by rewrite H1|].
  destruct (proj1 (tensor_scatter_nd_add_is_Some e1 i2 v2))
    as [Hlen2 Hin2]; [by rewrite H2|].
  assert (Hsome : is_Some (tensor_scatter_nd_add events i2 v2)).
  { apply tensor_scatter_nd_add_is_Some. split; [done|].
    eapply Forall_impl; [exact Hin2|]. intros ix Hix.
    by apply (scatter_in_bounds _ _ _ _ ix H1). }
  destruct Hsome as [e1' H1']. exists e1'. split; [done|].
  assert (Hsome : is_Some (tensor_scatter_nd_add e1' i1 v1)).
  { apply tensor_scatter_nd_add_is_Some. split; [done|].
    eapply Forall_impl; [exact Hin1|]. intros ix Hix.
    by apply (scatter_in_bounds _ _ _ _ ix H1'). }
  destruct Hsome as [e2' H2']. rewrite H2'. f_equal.
  apply tensor_scatter_nd_add_cells in H1 as [Hs1 Hc1].
  apply tensor_scatter_nd_add_cells in H2 as [Hs2 Hc2].
  apply tensor_scatter_nd_add_cells in H1' as [Hs1' Hc1'].
  apply tensor_scatter_nd_add_cells in H2' as [Hs2' Hc2'].
  apply tensor_ext; [congruence|]. intros m t x.
  rewrite Hc2', Hc1', Hc2, Hc1.
  destruct (cell events m t x); simpl; [f_equal; lia | done].
Qed.

(** X1. [_add_events] returns exactly when [m], [t], the expanded [x] and
    [x_star] have the same length and every triple (m_i, t_i, x_i) names an
    existing cell of [events]; in every other case it raises. *)
Theorem add_events_returns_iff events ms ts x xs :
  is_Some (_add_events events ms ts x xs)
  ↔ length ms = length ts
    ∧ length ts = length (_maybe_expand_dims x)
    ∧ length xs = length ms
    ∧ ∀ i mi ti xi,
        ms !! i = Some mi → ts !! i = Some ti →
        _maybe_expand_dims x !! i = Some xi →
        in_bounds events [mi; ti; xi].
Proof.
  unfold _add_events.
  destruct (tf_stack3 ms ts (_maybe_expand_dims x)) as [rows|] eqn:Hst; simpl.
  - destruct (tf_stack3_rows _ _ _ _ Hst) as [Hlen Hrows].
    destruct (proj1 (tf_stack3_is_Some ms ts (_maybe_expand_dims x)))
      as [Hl1 Hl2]; [by rewrite Hst|].
    rewrite tensor_scatter_nd_add_is_Some, Forall_lookup. split.
    + intros [Hlv Hin]. repeat split; try done; [lia|].
      intros i mi ti xi Hm Ht Hx. apply (Hin i). apply Hrows.
      by exists mi, ti, xi.
    + intros (_ & _ & Hlv & Hin). split; [lia|].
      intros i row (mi & ti & xi & Hm & Ht & Hx & ->)%Hrows. by apply (Hin i).
  - split; [by intros [? ?]|]. intros (Hl1 & Hl2 & _).
    destruct (proj2 (tf_stack3_is_Some ms ts (_maybe_expand_dims x)))
      as [? ?]; [done|congruence].
Qed.

End AddEventsFacts.

(** ** More on [one_step] *)

Section KernelExtras.

Context {State : Type}.
Variable AddOccultProposal :
  Tensor3 → Topology → State → Z → option (Z * Z) → option string → Proposal.
Variable DelOccultProposal :
  Tensor3 → Topology → State → option (Z * Z) → Z → Proposal.

Implicit Types (k : Kernel State) (events : Tensor3) (update : Update).

Local Abbreviation add_occult_fn := (add_occult_fn AddOccultProposal DelOccultProposal).
Local Abbreviation del_occult_fn := (del_occult_fn AddOccultProposal DelOccultProposal).
Local Abbreviation one_step := (one_step AddOccultProposal DelOccultProposal).
Local Abbreviation reachable := (reachable AddOccultProposal DelOccultProposal).

Lemma chosen_branch_Some k events u branch :
  chosen_branch k events u = Some branch
  ↔ ∃ sl, slice_last events (target (topology k)) = Some sl
      ∧ branch = if delete_pred u sl then Delete else Add.
Proof.
  unfold chosen_branch.
  destruct (slice_last events (target (topology k))) as [sl|]; simpl.
  - split; [intros [= <-]; eauto | by intros (? & [= <-] & ->)].
  - split; [done | by intros (? & ? & _)].
Qed.

(** Whether the last dimension can be sliced at [x] is a matter of shape. *)
Lemma slice_last_is_Some (events : Tensor3) (x : nat) :
  is_Some (slice_last events x)
  ↔ Forall (Forall (λ n : nat, (x < n)%nat)) (shape3 events).
Proof.
  unfold slice_last, shape3. rewrite mapM_is_Some, Forall_fmap.
  apply Forall_proper; [|done]. intros row. simpl.
  rewrite mapM_is_Some, Forall_fmap.
  apply Forall_proper; [|done]. intros col. simpl.
  apply lookup_lt_is_Some.
Qed.

(** X6. [one_step] returns exactly when the target slice can be read, the
    update holds one (m, t, x_star) triple that names an existing cell of the
    target transition, and, if the delete branch is the one chosen, the
    kernel was given a name; in every other case it raises. *)
Theorem one_step_returns_iff k events prev u update :
  is_Some (one_step k events prev u update)
  ↔ ∃ sl (im it : nat) (x c : Z),
      slice_last events (target (topology k)) = Some sl
      ∧ m update = [Z.of_nat im] ∧ t update = [Z.of_nat it]
      ∧ x_star update = [x]
      ∧ cell events im it (target (topology k)) = Some c
      ∧ (delete_pred u sl = true → is_Some (name k)).
Proof.
  split.
  - intros [[next res] H].
    pose proof H as (b & lac & Hb & Hfn & _)%one_step_Some.
    apply one_step_alter_cell in H
      as (b' & im & it & x & c & Hb' & Hm & Ht & Hx & Hc & _).
    apply chosen_branch_Some in Hb as (sl & Hsl & ->).
    exists sl, im, it, x, c. repeat split; try done.
    intros Hd. rewrite Hd in Hfn.
    apply del_occult_fn_Some in Hfn as (? & s & _ & Hs & _). by rewrite Hs.
  - intros (sl & im & it & x & c & Hsl & Hm & Ht & Hx & Hc & Hname).
    destruct update as [ms ts xs]. simpl in Hm, Ht, Hx. subst ms ts xs.
    unfold OccultEventsMH.one_step, chosen_branch. rewrite Hsl. simpl.
    set (update := {| m := [Z.of_nat im]; t := [Z.of_nat it]; x_star := [x] |}).
    destruct (delete_pred u sl).
    + destruct Hname as [s Hs]; [done|].
      assert (∃ r, del_occult_fn k events update = Some r) as [[[d n] l] ->].
      { eexists. apply del_occult_fn_Some. eexists _, s.
        split; [|split; [done|reflexivity]].
        apply (add_events_Some _ _ _ _ _ (target (topology k))); [done|].
        by exists im, it, (- x), c. }
      by eexists.
    + assert (∃ r, add_occult_fn k events update = Some r) as [[[d n] l] ->].
      { eexists. apply add_occult_fn_Some. eexists.
        split; [|reflexivity].
        apply (add_events_Some _ _ _ _ _ (target (topology k))); [done|].
        by exists im, it, x, c. }
      by eexists.
Qed.

(** X7. A kernel built without a name (the default [name=None]) raises in
    every call that takes the delete branch, whatever the update, because
    the branch evaluates [self.name + "rev"]. *)
Theorem one_step_delete_needs_name k events prev u update :
  name k = None →
  chosen_branch k events u = Some Delete →
  one_step k events prev u update = None.
Proof.
  intros Hn Hb. unfold OccultEventsMH.one_step. rewrite Hb. simpl.
  unfold OccultEventsMH.del_occult_fn, name_rev. rewrite Hn.
  by destruct (_add_events _ _ _ _ _).
Qed.

(** X8. The results of a returning [one_step] carry the target log density
    of the state it returns, and diagnostics [[m, t, x_star]] of three
    entries, the shape [bootstrap_results] starts the chain with. *)
Theorem one_step_results_layout k events prev u update next_state results :
  one_step k events prev u update = Some (next_state, results) →
  target_log_prob results = target_log_prob_fn k next_state
  ∧ (∃ im it x, m update = [im] ∧ t update = [it] ∧ x_star update = [x]
       ∧ extra results = [im; it; x])
  ∧ length (extra results) = length (extra (bootstrap_results k events)).
Proof.
  intros H. pose proof H as (b & lac & _ & _ & ->)%one_step_Some.
  apply one_step_alter_cell in H
    as (b' & im & it & x & c & _ & Hm & Ht & Hx & _ & _).
  simpl. rewrite Hm, Ht, Hx. split; [done|]. split; [|done].
  by exists (Z.of_nat im), (Z.of_nat it), x.
Qed.

(** A returning [one_step] keeps the shape of the event tensor. *)
Lemma one_step_shape k events prev u update next_state results :
  one_step k events prev u update = Some (next_state, results) →
  shape3 next_state = shape3 events.
Proof.
  intros (b & im & it & x & c & _ & _ & _ & _ & _ & ->)%one_step_alter_cell.
  apply shape3_alter_cell.
Qed.

(** X9. Along every chain of [one_step] calls, with any proposal pair, the
    event tensor keeps its shape, and the target slice stays readable. *)
Theorem reachable_keeps_shape k (init_events events : Tensor3) :
  reachable k init_events events →
  shape3 events = shape3 init_events
  ∧ (is_Some (slice_last init_events (target (topology k))) →
     is_Some (slice_last events (target (topology k)))).
Proof.
  intros Hr.
  assert (Hs : shape3 events = shape3 init_events).
  { induction Hr as [|events b update next res _ IH Hstep]; [done|].
    destruct Hstep as [prev u b update next res _ _ Hstep].
    apply one_step_shape in Hstep. congruence. }
  split; [done|]. by rewrite !slice_last_is_Some, Hs.
Qed.

(** X10. After a returning add of a positive count to a tensor without
    negative entries, the target transition is no longer empty: every later
    call whose uniform variate is below one half takes the delete branch. *)
Theorem delete_available_after_add k events prev u update next_state results
    (x : Z) (u' : Q) :
  one_step k events prev u update = Some (next_state, results) →
  chosen_branch k events u = Some Add →
  x_star update = [x] → 0 < x →
  non_negative events →
  (u' < 1 # 2)%Q →
  chosen_branch k next_state u' = Some Delete.
Proof.
  intros H Hb Hx Hpos Hnn Hu.
  pose proof (one_step_shape _ _ _ _ _ _ _ H) as Hshape.
  apply one_step_alter_cell in H
    as (b' & im & it & x' & c & Hb' & _ & _ & Hx' & Hc & ->).
  assert (b' = Add) as -> by congruence.
  assert (x' = x) as -> by congruence.
  apply chosen_branch_Some in Hb as (sl & Hsl & _).
  assert (Hsome : is_Some (slice_last
            (alter_cell (λ c, c + x) im it (target (topology k)) events)
            (target (topology k)))).
  { rewrite slice_last_is_Some, Hshape, <- slice_last_is_Some. by rewrite Hsl. }
  destruct Hsome as [sl' Hsl']. apply chosen_branch_Some. exists sl'.
  split; [done|].
  assert (Hd : delete_pred u' sl' = true); [|by rewrite Hd].
  apply delete_pred_true. split; [done|]. exists (c + x). split.
  - apply (slice_last_entries _ _ _ _ Hsl'). exists im, it.
    by rewrite cell_alter_cell_eq, Hc.
  - pose proof (proj1 (non_negative_cell events) Hnn _ _ _ _ Hc). lia.
Qed.

End KernelExtras.

Lemma one_step_delete_needs_name_witness :
  chosen_branch
    (mkKernel unit (λ _, 0%Q) (mkTopology 1) tt 5 None None None)
    Example.events0 (1 # 4) = Some Delete
  ∧ one_step Example.AddOccultProposal Example.DelOccultProposal
      (mkKernel unit (λ _, 0%Q) (mkTopology 1) tt 5 None None None)
      Example.events0 Example.results0 (1 # 4) Example.update0 = None.
Proof.
  split; [reflexivity|].
  exact (one_step_delete_needs_name Example.AddOccultProposal
           Example.DelOccultProposal
           (mkKernel unit (λ _, 0%Q) (mkTopology 1) tt 5 None None None)
           Example.events0 Example.results0 (1 # 4) Example.update0
           eq_refl eq_refl).
Defined.

Lemma one_step_results_layout_witness :
  one_step Example.AddOccultProposal Example.DelOccultProposal Example.kernel
    Example.events0 Example.results0 (1 # 4) Example.update0
  = Some (Example.events_del, Example.results_del)
  ∧ target_log_prob Example.results_del
    = target_log_prob_fn Example.kernel Example.events_del
  ∧ length (extra Example.results_del) = 3%nat.
Proof.
  split; [reflexivity|].
  destruct (one_step_results_layout Example.AddOccultProposal
              Example.DelOccultProposal Example.kernel Example.events0
              Example.results0 (1 # 4) Example.update0 Example.events_del
              Example.results_del eq_refl) as (Ht & _ & Hl).
  split; [exact Ht | exact Hl].
Defined.

Lemma reachable_keeps_shape_witness :
  reachable Example.AddOccultProposal Example.DelOccultProposal
    Example.kernel Example.events0 Example.events_add
  ∧ shape3 Example.events_add = shape3 Example.events0.
Proof.
  assert (Hr : reachable Example.AddOccultProposal Example.DelOccultProposal
                 Example.kernel Example.events0 Example.events_add)
    by (eapply reachable_step; [apply reachable_init | apply example_step_add]).
  split; [exact Hr|].
  exact (proj1 (reachable_keeps_shape Example.AddOccultProposal
                  Example.DelOccultProposal Example.kernel Example.events0
                  Example.events_add Hr)).
Defined.

Lemma delete_available_after_add_witness :
  one_step Example.AddOccultProposal Example.DelOccultProposal Example.kernel
    Example.events_del Example.results0 (1 # 4) Example.update0
  = Some (Example.events0,
          {| log_acceptance_correction :=
               (reduce_sum (Example.del_log_prob Example.events0
                              (topology Example.kernel) tt None 5
                              Example.update0)
                - reduce_sum (Example.add_log_prob Example.events_del
                                (topology Example.kernel) tt 5 None
                                Example.update0))%Q;
             target_log_prob :=
               target_log_prob_fn Example.kernel Example.events0;
             extra := [0; 1; 2] |})
  ∧ chosen_branch Example.kernel Example.events_del (1 # 4) = Some Add
  ∧ chosen_branch Example.kernel Example.events0 (1 # 4) = Some Delete.
Proof.
  split; [reflexivity|]. split; [reflexivity|].
  apply (delete_available_after_add Example.AddOccultProposal
           Example.DelOccultProposal Example.kernel Example.events_del
           Example.results0 (1 # 4) Example.update0 _ _ 2 (1 # 4)
           eq_refl eq_refl eq_refl).
  - lia.
  - repeat constructor; discriminate.
  - reflexivity.
Defined.


(** ** More on the helpers of the two files *)

Section HelperExtras.

(** X11. [_nonzero_rows] returns one flag per row, each 1 or 0. A flag 1
    means the row has a positive entry; for a row without negative entries
    the flag is 1 as soon as the row has a non-zero entry. *)
Theorem nonzero_rows_flags (rows : Tensor2) (i : nat) (row : list Z) :
  rows !! i = Some row →
  length (_nonzero_rows rows) = length rows
  ∧ ∃ flag,
      _nonzero_rows rows !! i = Some flag
      ∧ (flag = 1 ∨ flag = 0)
      ∧ (flag = 1 → ∃ z, z ∈ row ∧ 0 < z)
      ∧ (Forall (λ z, 0 ≤ z) row → (∃ z, z ∈ row ∧ z ≠ 0) → flag = 1).
Proof.
  intros Hrow. unfold _nonzero_rows. split; [apply length_fmap|].
  rewrite list_lookup_fmap, Hrow. simpl. eexists. split; [reflexivity|].
  assert (Hpos : 0 < foldr Z.add 0 row → ∃ z, z ∈ row ∧ 0 < z).
  { clear. induction row as [|a row IH]; simpl; [lia|]. intros H.
    destruct (decide (0 < a)).
    - exists a. split; [apply list_elem_of_here | done].
    - destruct IH as (z & Hz & Hlt); [lia|].
      exists z. split; [by apply list_elem_of_further | done]. }
  assert (Hnn : Forall (λ z, 0 ≤ z) row → (∃ z, z ∈ row ∧ z ≠ 0) →
                0 < foldr Z.add 0 row).
  { clear. induction row as [|a row IH]; simpl.
    - by intros _ (z & ?%elem_of_nil & _).
    - intros [Ha Hall]%Forall_cons (z & Hz & Hne).
      assert (0 ≤ foldr Z.add 0 row).
      { clear -Hall. induction Hall; simpl; lia. }
      apply elem_of_cons in Hz as [->|Hz]; [lia|].
      assert (0 < foldr Z.add 0 row) by (apply IH; eauto). lia. }
  destruct (Z.ltb_spec 0 (foldr Z.add 0 row)) as [Hlt|Hge].
  - repeat split; auto.
  - repeat split; auto; try discriminate. intros Hall Hex.
    specialize (Hnn Hall Hex). lia.
Qed.

End HelperExtras.

Lemma nonzero_rows_flags_witness :
  [[0; 0]; [0; 2]] !! 1%nat = Some [0; 2]
  ∧ length (_nonzero_rows [[0; 0]; [0; 2]]) = 2%nat.
Proof.
  split; [reflexivity|].
  exact (proj1 (nonzero_rows_flags [[0; 0]; [0; 2]] 1 [0; 2] eq_refl)).
Defined.


(** ** The layout of a sample *)

Section TransposeFacts.

Lemma omap_lookup_rect (sim : Tensor3) (j M : nat) :
  Forall (λ r : Tensor2, length r = M) sim → (j < M)%nat →
  length (omap (λ row : Tensor2, row !! j) sim) = length sim
  ∧ ∀ t, omap (λ row : Tensor2, row !! j) sim !! t
         = sim !! t ≫= (λ row : Tensor2, row !! j).
Proof.
  intros Hrect Hj. induction Hrect as [|r sim Hr _ [IHl IH]]; [done|].
  destruct (lookup_lt_is_Some_2 r j) as [c Hc]; [lia|].
  change (omap (λ row : Tensor2, row !! j) (r :: sim))
    with (match r !! j with
          | Some c => c :: omap (λ row : Tensor2, row !! j) sim
          | None => omap (λ row : Tensor2, row !! j) sim
          end).
  rewrite Hc. split; [simpl; by rewrite IHl|].
  intros [|t]; simpl; [done | apply IH].
Qed.

(** On a non-empty tensor whose entries all have [M] rows, the transpose has
    [M] entries of as many rows as the tensor has entries, and swaps the two
    leading indices. *)
Lemma tf_transpose_102_rect (sim : Tensor3) (M : nat) :
  sim ≠ [] → Forall (λ r : Tensor2, length r = M) sim →
  length (tf_transpose_102 sim) = M
  ∧ Forall (λ r : Tensor2, length r = length sim) (tf_transpose_102 sim)
  ∧ ∀ j t, (j < M)%nat →
      tf_transpose_102 sim !! j ≫= (λ row : Tensor2, row !! t)
      = sim !! t ≫= (λ row : Tensor2, row !! j).
Proof.
  intros Hne Hrect. unfold tf_transpose_102.
  assert (Hw : from_option length 0%nat (head sim) = M).
  { destruct sim as [|r sim]; [done|]. simpl. by inversion Hrect. }
  rewrite Hw. split; [by rewrite length_fmap, length_seq|]. split.
  - apply Forall_fmap, Forall_forall. intros j [_ Hj]%elem_of_seq. simpl.
    apply omap_lookup_rect with M; [done|lia].
  - intros j t Hj. rewrite list_lookup_fmap, lookup_seq_lt by done. simpl.
    by apply omap_lookup_rect with M.
Qed.

End TransposeFacts.

Section SampleLayout.

Context {Hazard Seed Sim Coords G : Type}.
Variable discrete_markov_simulation :
  Hazard → Tensor2 → Q → Q → Q → Tensor2 → option Seed → Rand G (list Q * Sim).
Variable transition_coords : Tensor2 → Coords.
Variable batch_gather : Sim → Coords → Tensor3.

Implicit Types (self : Model Hazard).

Local Abbreviation _sample_n :=
  (_sample_n discrete_markov_simulation transition_coords batch_gather).

(** X12. Let the gathered simulation be a non-empty tensor of [T] steps with
    [M] metapopulations each. Then [_sample_n] returns one trajectory that is
    metapopulation-major: it has [M] entries of [T] steps, and its entry
    [m][t] is the entry [t][m] of the gathered simulation. *)
Theorem sample_n_layout self (n : nat) (seed : option Seed) (g : G) (M : nat)
    (gathered : Tensor3) :
  gathered
  = batch_gather
      (discrete_markov_simulation (transition_rates self) (initial_state self)
         (initial_step self)
         (initial_step self
          + inject_Z (Z.of_nat (num_steps self)) * time_delta self)%Q
         (time_delta self) (stoichiometry self) seed g).1.2
      (transition_coords (stoichiometry self)) →
  gathered ≠ [] →
  Forall (λ r : Tensor2, length r = M) gathered →
  ∃ out : Tensor3,
    (_sample_n self n seed g).1 = [out]
    ∧ length out = M
    ∧ Forall (λ r : Tensor2, length r = length gathered) out
    ∧ ∀ im it, (im < M)%nat →
        out !! im ≫= (λ row : Tensor2, row !! it)
        = gathered !! it ≫= (λ row : Tensor2, row !! im).
Proof.
  intros Hg Hne Hrect. exists (tf_transpose_102 gathered). split.
  - unfold DiscreteTimeStateTransition._sample_n. rewrite Hg.
    by destruct (discrete_markov_simulation _ _ _ _ _ _ seed g) as [[ts sim] g'].
  - by apply tf_transpose_102_rect.
Qed.

End SampleLayout.

Lemma sample_n_layout_witness :
  (Example.toy_sample 1 (Some 7%nat) 0%nat).1 = [[[[7]; [8]]]]
  ∧ ∃ out : Tensor3,
      (Example.toy_sample 1 (Some 7%nat) 0%nat).1 = [out]
      ∧ length out = 1%nat.
Proof.
  split; [reflexivity|].
  destruct (sample_n_layout
              (DiscreteMarkov.discrete_markov_simulation
                 Example.toy_split Example.toy_ambient Example.toy_draw)
              (λ _, tt) (λ sim _, sim) Example.toy_model 1 (Some 7%nat)
              0%nat 1 [[[7]]; [[8]]] eq_refl)
    as (out & Hout & Hlen & _).
  - discriminate.
  - repeat constructor.
  - by exists out.
Defined.


(** ** A zero count *)

Section KernelTotals.

Context {State : Type}.
Variable AddOccultProposal :
  Tensor3 → Topology → State → Z → option (Z * Z) → option string → Proposal.
Variable DelOccultProposal :
  Tensor3 → Topology → State → option (Z * Z) → Z → Proposal.

Implicit Types (k : Kernel State) (events : Tensor3) (update : Update).

Local Abbreviation one_step := (one_step AddOccultProposal DelOccultProposal).

(** X14. A returning [one_step] whose sampled count is zero returns the
    event tensor it was given, on either branch. *)
Theorem one_step_zero_count k events prev u update next_state results :
  one_step k events prev u update = Some (next_state, results) →
  x_star update = [0] →
  next_state = events.
Proof.
  intros (b & im & it & x & c & _ & _ & _ & Hx & _ & ->)%one_step_alter_cell
    Hz.
  assert (x = 0) as -> by congruence.
  apply alter_cell_id. intros c'. destruct b; lia.
Qed.

End KernelTotals.

Lemma one_step_zero_count_witness :
  one_step Example.AddOccultProposal Example.DelOccultProposal Example.kernel
    Example.events0 Example.results0 (3 # 4)
    {| m := [0]; t := [0]; x_star := [0] |}
  = Some (Example.events0,
          {| log_acceptance_correction :=
               (reduce_sum (Example.del_log_prob Example.events0
                              (topology Example.kernel) tt None 5
                              Example.update0)
                - reduce_sum (Example.add_log_prob Example.events0
                                (topology Example.kernel) tt 5 None
                                Example.update0))%Q;
             target_log_prob :=
               target_log_prob_fn Example.kernel Example.events0;
             extra := [0; 0; 0] |})
  ∧ Example.events0 = Example.events0.
Proof.
  split; [reflexivity|].
  exact (one_step_zero_count Example.AddOccultProposal
           Example.DelOccultProposal Example.kernel Example.events0
           Example.results0 (3 # 4) {| m := [0]; t := [0]; x_star := [0] |}
           Example.events0 _ eq_refl eq_refl).
Defined.


(** * The floating-point event tensor *)

(** ** Rounding *)

Section RoundingFacts.

Implicit Types (events : Tensor3) (p z : Z).

(** Integers up to [2 ^ p] in magnitude are stored as they are. *)
Lemma round_to_precision_exact p z :
  Z.abs z ≤ 2 ^ p → Rounded.round_to_precision p z = z.
Proof.
  intros H. unfold Rounded.round_to_precision.
  by rewrite (proj2 (Z.leb_le _ _) H).
Qed.

Lemma tf_cast_exact p (xs : list Z) :
  Forall (λ x, Z.abs x ≤ 2 ^ p) xs → Rounded.tf_cast p xs = xs.
Proof.
  unfold Rounded.tf_cast. induction 1 as [|x xs Hx _ IH]; [done|].
  rewrite fmap_cons, IH. by rewrite round_to_precision_exact.
Qed.

(** Changing one existing cell by two functions that agree on its content
    gives the same tensor. *)
Lemma alter_cell_ext_at (f g : Z → Z) (m t x : nat) events (c : Z) :
  cell events m t x = Some c → f c = g c →
  alter_cell f m t x events = alter_cell g m t x events.
Proof.
  unfold cell, alter_cell. intros Hc Hfg.
  destruct (events !! m) as [row|] eqn:Hrow; simpl in Hc; [|done].
  destruct (row !! t) as [col|] eqn:Hcol; simpl in Hc; [|done].
  apply list_alter_ext; [|done]. intros row' Hrow'.
  assert (row' = row) as -> by congruence.
  apply list_alter_ext; [|done]. intros col' Hcol'.
  assert (col' = col) as -> by congruence.
  apply list_alter_ext; [|done]. intros c' Hc'. congruence.
Qed.

Lemma bounded_cell (B : Z) events :
  bounded B events ↔ ∀ m t x c, cell events m t x = Some c → Z.abs c ≤ B.
Proof.
  unfold bounded, cell. rewrite Forall_lookup. split.
  - intros H m t x c Hc.
    destruct (events !! m) as [row|] eqn:Hrow; simpl in Hc; [|done].
    destruct (row !! t) as [col|] eqn:Hcol; simpl in Hc; [|done].
    specialize (H m row Hrow). rewrite Forall_lookup in H.
    specialize (H t col Hcol). rewrite Forall_lookup in H. by apply (H x).
  - intros H m row Hrow. apply Forall_lookup. intros t col Hcol.
    apply Forall_lookup. intros x c Hc. apply (H m t x c).
    rewrite Hrow. simpl. by rewrite Hcol.
Qed.

(** One row of the rounded scatter-add is defined on in-bounds triples. *)
Lemma rounded_scatter_add_row_Some p events (ix : list Z) (v : Z) events' :
  Rounded.scatter_add_row p events ix v = Some events' ↔
  ∃ (m t x : nat) (c : Z), ix = [Z.of_nat m; Z.of_nat t; Z.of_nat x]
    ∧ cell events m t x = Some c
    ∧ events'
      = alter_cell (λ c, Rounded.round_to_precision p (c + v)) m t x events.
Proof.
  split.
  - destruct ix as [|a [|b [|c' [|]]]]; simpl; try discriminate.
    destruct (zidx a) as [m|] eqn:Ha; simpl; [|discriminate].
    destruct (zidx b) as [t|] eqn:Hb; simpl; [|discriminate].
    destruct (zidx c') as [x|] eqn:Hc; simpl; [|discriminate].
    destruct (cell events m t x) as [c|] eqn:Hcell; simpl; [|discriminate].
    intros [= <-]. exists m, t, x, c.
    apply zidx_Some in Ha, Hb, Hc. by subst.
  - intros (m & t & x & c & -> & Hcell & ->). simpl.
    rewrite !zidx_of_nat. simpl. by rewrite Hcell.
Qed.

Local Arguments Rounded.scatter_add_row : simpl never.

(** The rounded [_add_events] with a one-element transition index. *)
Lemma rounded_add_events_Some p events ms ts (x : IndexArg) xs (tgt : nat)
    events' :
  _maybe_expand_dims x = [Z.of_nat tgt] →
  Rounded._add_events p events ms ts x xs = Some events' ↔
  ∃ (im it : nat) (v c : Z),
    ms = [Z.of_nat im] ∧ ts = [Z.of_nat it] ∧ xs = [v]
    ∧ cell events im it tgt = Some c
    ∧ events'
      = alter_cell (λ c, Rounded.round_to_precision p (c + v)) im it tgt events.
Proof.
  intros Hx. unfold Rounded._add_events. rewrite Hx. split.
  - destruct ms as [|m0 [|? ?]], ts as [|t0 [|? ?]]; simpl; try discriminate.
    destruct xs as [|v [|? ?]]; simpl; try discriminate.
    + destruct (Rounded.scatter_add_row p events [m0; t0; Z.of_nat tgt] v)
        as [e|] eqn:He; simpl; [|discriminate].
      intros [= <-].
      apply rounded_scatter_add_row_Some in He
        as (im & it & ix & c & Hix & Hc & ->).
      injection Hix as -> -> Hix'. apply Nat2Z.inj in Hix' as <-.
      by exists im, it, v, c.
    + by destruct (Rounded.scatter_add_row p events [m0; t0; Z.of_nat tgt] v).
  - intros (im & it & v & c & -> & -> & -> & Hc & ->). simpl.
    assert (He : Rounded.scatter_add_row p events
                   [Z.of_nat im; Z.of_nat it; Z.of_nat tgt] v
                 = Some (alter_cell
                           (λ c, Rounded.round_to_precision p (c + v))
                           im it tgt events))
      by (apply rounded_scatter_add_row_Some; by exists im, it, tgt, c).
    by rewrite He.
Qed.

End RoundingFacts.

(** ** [one_step] on a floating-point event tensor *)

Section RoundedKernelFacts.

Context {State : Type}.
Variable AddOccultProposal :
  Tensor3 → Topology → State → Z → option (Z * Z) → option string → Proposal.
Variable DelOccultProposal :
  Tensor3 → Topology → State → option (Z * Z) → Z → Proposal.
Variable p : Z.

Implicit Types (k : Kernel State) (events : Tensor3) (update : Update).

Local Abbreviation add_occult_fn :=
  (Rounded.add_occult_fn AddOccultProposal DelOccultProposal p).
Local Abbreviation del_occult_fn :=
  (Rounded.del_occult_fn AddOccultProposal DelOccultProposal p).
Local Abbreviation one_step :=
  (Rounded.one_step AddOccultProposal DelOccultProposal p).

Lemma rounded_add_occult_fn_Some k events update r :
  add_occult_fn k events update = Some r ↔
  ∃ (im it : nat) (x c : Z),
    m update = [Z.of_nat im] ∧ t update = [Z.of_nat it] ∧ x_star update = [x]
    ∧ cell events im it (target (topology k)) = Some c
    ∧ let next_state :=
        alter_cell
          (λ c, Rounded.round_to_precision p
                  (c + Rounded.round_to_precision p x))
          im it (target (topology k)) events in
      r = (update, next_state,
           (reduce_sum
              (log_prob (DelOccultProposal next_state (topology k)
                           (_initial_state k) (t_range k) (nmax k)) update)
            - reduce_sum
                (log_prob (AddOccultProposal events (topology k)
                             (_initial_state k) (nmax k) (t_range k) (name k))
                   update))%Q).
Proof.
  unfold Rounded.add_occult_fn. split.
  - destruct (Rounded._add_events _ _ _ _ _ _) as [next|] eqn:Hadd; simpl;
      [|discriminate].
    intros [= <-].
    destruct (proj1 (rounded_add_events_Some p _ _ _
                       (Scalar (Z.of_nat (target (topology k)))) _
                       (target (topology k)) _ eq_refl) Hadd)
      as (im & it & v & c & Hm & Ht & Hx & Hc & ->).
    destruct (x_star update) as [|x [|? ?]] eqn:Hxs; try discriminate.
    injection Hx as <-. by exists im, it, x, c.
  - intros (im & it & x & c & Hm & Ht & Hx & Hc & ->).
    rewrite Hm, Ht, Hx.
    assert (Hadd : Rounded._add_events p events [Z.of_nat im] [Z.of_nat it]
                     (Scalar (Z.of_nat (target (topology k))))
                     (Rounded.tf_cast p [x])
                   = Some (alter_cell
                             (λ c, Rounded.round_to_precision p
                                     (c + Rounded.round_to_precision p x))
                             im it (target (topology k)) events)).
    { apply (rounded_add_events_Some _ _ _ _ _ _ (target (topology k)));
        [done|]. by exists im, it, (Rounded.round_to_precision p x), c. }
    by rewrite Hadd.
Qed.

Lemma rounded_del_occult_fn_Some k events update r :
  del_occult_fn k events update = Some r ↔
  ∃ (im it : nat) (x c : Z) (s : string),
    m update = [Z.of_nat im] ∧ t update = [Z.of_nat it] ∧ x_star update = [x]
    ∧ cell events im it (target (topology k)) = Some c
    ∧ name k = Some s
    ∧ let next_state :=
        alter_cell
          (λ c, Rounded.round_to_precision p
                  (c + Rounded.round_to_precision p (- x)))
          im it (target (topology k)) events in
      r = (update, next_state,
           (reduce_sum
              (log_prob (AddOccultProposal next_state (topology k)
                           (_initial_state k) (nmax k) (t_range k)
                           (Some (s ++ "rev")%string)) update)
            - reduce_sum
                (log_prob (DelOccultProposal events (topology k)
                             (_initial_state k) (t_range k) (nmax k)) update))%Q).
Proof.
  unfold Rounded.del_occult_fn, name_rev. split.
  - destruct (Rounded._add_events _ _ _ _ _ _) as [next|] eqn:Hadd; simpl;
      [|discriminate].
    destruct (name k) as [s|] eqn:Hs; simpl; [|discriminate].
    intros [= <-].
    destruct (proj1 (rounded_add_events_Some p _ _ _
                       (Vector [Z.of_nat (target (topology k))]) _
                       (target (topology k)) _ eq_refl) Hadd)
      as (im & it & v & c & Hm & Ht & Hx & Hc & ->).
    destruct (x_star update) as [|x [|? ?]] eqn:Hxs; try discriminate.
    injection Hx as <-. by exists im, it, x, c, s.
  - intros (im & it & x & c & s & Hm & Ht & Hx & Hc & Hs & ->).
    rewrite Hm, Ht, Hx, Hs.
    assert (Hadd : Rounded._add_events p events [Z.of_nat im] [Z.of_nat it]
                     (Vector [Z.of_nat (target (topology k))])
                     (Rounded.tf_cast p (Z.opp <$> [x]))
                   = Some (alter_cell
                             (λ c, Rounded.round_to_precision p
                                     (c + Rounded.round_to_precision p (- x)))
                             im it (target (topology k)) events)).
    { apply (rounded_add_events_Some _ _ _ _ _ _ (target (topology k)));
        [done|]. by exists im, it, (Rounded.round_to_precision p (- x)), c. }
    by rewrite Hadd.
Qed.

(** What a returning [one_step] did to the tensor. *)
Lemma rounded_one_step_alter_cell k events prev u update next_state results :
  one_step k events prev u update = Some (next_state, results) →
  ∃ branch (im it : nat) (x c : Z),
    chosen_branch k events u = Some branch
    ∧ m update = [Z.of_nat im] ∧ t update = [Z.of_nat it] ∧ x_star update = [x]
    ∧ cell events im it (target (topology k)) = Some c
    ∧ next_state
      = alter_cell
          (λ c, Rounded.round_to_precision p
                  (c + Rounded.round_to_precision p
                         (match branch with Add => x | Delete => - x end)))
          im it (target (topology k)) events.
Proof.
  unfold Rounded.one_step.
  destruct (chosen_branch k events u) as [branch|]; simpl; [|discriminate].
  intros H. exists branch. destruct branch.
  - destruct (add_occult_fn k events update) as [[[d n] l]|] eqn:Hfn;
      simpl in H; [|discriminate].
    injection H as <- _.
    apply rounded_add_occult_fn_Some in Hfn
      as (im & it & x & c & Hm & Ht & Hx & Hc & [= _ -> _]).
    by exists im, it, x, c.
  - destruct (del_occult_fn k events update) as [[[d n] l]|] eqn:Hfn;
      simpl in H; [|discriminate].
    injection H as <- _.
    apply rounded_del_occult_fn_Some in Hfn
      as (im & it & x & c & s & Hm & Ht & Hx & Hc & _ & [= _ -> _]).
    by exists im, it, x, c.
Qed.

(** C4. When [one_step] returns, the sampled [m], [t] and [x_star] hold one
    entry each, and the returned state differs from the current one only at
    the cell (m, t, target). Whenever [x_star] and the new count are at most
    [2 ^ p] in magnitude, the add branch has raised that cell by exactly
    [x_star] and the delete branch has lowered it by exactly [x_star]. Every
    other position reads as before. *)
Theorem C4_single_cell_update_rounded
    k events prev u update next_state results :
  one_step k events prev u update = Some (next_state, results) →
  ∃ branch (im it : nat) (x c : Z),
    chosen_branch k events u = Some branch
    ∧ m update = [Z.of_nat im] ∧ t update = [Z.of_nat it] ∧ x_star update = [x]
    ∧ cell events im it (target (topology k)) = Some c
    ∧ (Z.abs x ≤ 2 ^ p →
       Z.abs (match branch with Add => c + x | Delete => c - x end) ≤ 2 ^ p →
       cell next_state im it (target (topology k))
       = Some (match branch with Add => c + x | Delete => c - x end))
    ∧ ∀ m' t' x',
        (m', t', x') ≠ (im, it, target (topology k)) →
        cell next_state m' t' x' = cell events m' t' x'.
Proof.
  intros (branch & im & it & x & c & Hb & Hm & Ht & Hx & Hc & ->)
    %rounded_one_step_alter_cell.
  exists branch, im, it, x, c. repeat split; try done.
  - intros Hxb Hcb. rewrite cell_alter_cell_eq, Hc. simpl. f_equal.
    destruct branch.
    + by rewrite (round_to_precision_exact p x), round_to_precision_exact.
    + rewrite (round_to_precision_exact p (- x)) by lia.
      by rewrite round_to_precision_exact.
  - intros m' t' x' Hne. by apply cell_alter_cell_ne.
Qed.

End RoundedKernelFacts.

Lemma C4_single_cell_update_rounded_witness :
  (∃ results,
     Rounded.one_step Example.AddOccultProposal Example.DelOccultProposal 53
       Example.kernel Example.events0 Example.results0 (3 # 4) Example.update0
     = Some (Example.events_add, results))
  ∧ cell Example.events_add 0 1 1 = Some (2 + 2)
  ∧ cell Example.events_add 0 0 0 = cell Example.events0 0 0 0.
Proof.
  assert (Hstep :
    Rounded.one_step Example.AddOccultProposal Example.DelOccultProposal 53
      Example.kernel Example.events0 Example.results0 (3 # 4) Example.update0
    = Some (Example.events_add, Example.results_add)) by reflexivity.
  split; [by eexists|].
  destruct (C4_single_cell_update_rounded
              Example.AddOccultProposal Example.DelOccultProposal 53
              Example.kernel Example.events0 Example.results0 (3 # 4)
              Example.update0 Example.events_add Example.results_add Hstep)
    as (branch & im & it & x & c & Hb & Hm & Ht & Hx & Hc & Hexact & Hother).
  injection Hb as <-. injection Hm as Hm. injection Ht as Ht. injection Hx as <-.
  assert (im = 0%nat) as -> by lia. assert (it = 1%nat) as -> by lia.
  injection Hc as <-. split.
  - apply Hexact; by vm_compute.
  - apply Hother. discriminate.
Defined.

Lemma C4_exact_change_counterexample :
  ∃ next_state results,
    Rounded.one_step Example.AddOccultProposal Example.DelOccultProposal 53
      Example.kernel BigExample.events_big Example.results0 (3 # 4)
      BigExample.update1
    = Some (next_state, results)
    ∧ chosen_branch Example.kernel BigExample.events_big (3 # 4) = Some Add
    ∧ x_star BigExample.update1 = [1]
    ∧ cell BigExample.events_big 0 1 1 = Some (2 ^ 53)
    ∧ cell next_state 0 1 1 = Some (2 ^ 53)
    ∧ cell next_state 0 1 1 ≠ Some (2 ^ 53 + 1).
Proof.
  eexists _, _. split; [reflexivity|]. repeat split. by vm_compute.
Qed.


(** ** The add and delete closures as a pair *)

Section RoundedSymmetry.

Context {State : Type}.
Variable add_log_prob :
  Tensor3 → Topology → State → Z → option (Z * Z) → Update → list Q.
Variable del_log_prob :
  Tensor3 → Topology → State → option (Z * Z) → Z → Update → list Q.
Variable p : Z.

Implicit Types (k : Kernel State) (events : Tensor3) (update : Update).

Local Abbreviation AddP := (OccultProposal.AddOccultProposal add_log_prob).
Local Abbreviation DelP := (OccultProposal.DelOccultProposal del_log_prob).
Local Abbreviation add_occult_fn := (Rounded.add_occult_fn AddP DelP p).
Local Abbreviation del_occult_fn := (Rounded.del_occult_fn AddP DelP p).


End RoundedSymmetry.




(** ** Within the exact range the rounded functions are the exact ones *)

Section ExactRange.

Implicit Types (events : Tensor3) (p B : Z).

Lemma sum_abs_nonneg (xs : list Z) : 0 ≤ sum_with Z.abs xs.
Proof. induction xs as [|x xs IH]; [done|]. rewrite sum_with_cons. lia. Qed.

Lemma sum_abs_opp (xs : list Z) :
  sum_with Z.abs (Z.opp <$> xs) = sum_with Z.abs xs.
Proof.
  induction xs as [|x xs IH]; [done|].
  rewrite fmap_cons, !sum_with_cons, IH. lia.
Qed.

Lemma sum_abs_bounds_entries (xs : list Z) (b : Z) :
  sum_with Z.abs xs ≤ b → Forall (λ x, Z.abs x ≤ b) xs.
Proof.
  induction xs as [|x xs IH]; intros H; [done|].
  rewrite sum_with_cons in H. pose proof (sum_abs_nonneg xs).
  constructor; [lia | apply IH; lia].
Qed.

Lemma bounded_mono B B' events : B ≤ B' → bounded B events → bounded B' events.
Proof.
  intros HB H. apply bounded_cell. intros m t x c Hc.
  pose proof (proj1 (bounded_cell B events) H _ _ _ _ Hc). lia.
Qed.

Lemma bounded_alter_add B events (m t x : nat) (v : Z) :
  bounded B events →
  bounded (B + Z.abs v) (alter_cell (λ c, c + v) m t x events).
Proof.
  intros H. apply bounded_cell. intros m' t' x' c' Hc'.
  destruct (decide ((m', t', x') = (m, t, x))) as [[= -> -> ->]|Hne].
  - rewrite cell_alter_cell_eq in Hc'.
    destruct (cell events m t x) as [c|] eqn:Hc; [|done].
    injection Hc' as <-.
    pose proof (proj1 (bounded_cell B events) H _ _ _ _ Hc). lia.
  - rewrite cell_alter_cell_ne in Hc' by done.
    pose proof (proj1 (bounded_cell B events) H _ _ _ _ Hc'). lia.
Qed.

Lemma rounded_scatter_add_row_exact p B events (ix : list Z) (v : Z) :
  bounded B events → B + Z.abs v ≤ 2 ^ p →
  Rounded.scatter_add_row p events ix v = scatter_add_row events ix v.
Proof.
  intros Hb Hr.
  destruct (scatter_add_row events ix v) as [e1|] eqn:He.
  - apply scatter_add_row_Some in He as (m & t & x & c & -> & Hc & ->).
    apply rounded_scatter_add_row_Some. exists m, t, x, c.
    repeat split; try done.
    apply (alter_cell_ext_at _ _ _ _ _ _ c Hc).
    pose proof (proj1 (bounded_cell B events) Hb _ _ _ _ Hc).
    symmetry. apply round_to_precision_exact. lia.
  - destruct (Rounded.scatter_add_row p events ix v) as [e1|] eqn:He';
      [|done].
    apply rounded_scatter_add_row_Some in He'
      as (m & t & x & c & -> & Hc & _).
    assert (is_Some (scatter_add_row events
                       [Z.of_nat m; Z.of_nat t; Z.of_nat x] v)) as [? Hs].
    { apply scatter_add_row_is_Some. exists m, t, x. by rewrite Hc. }
    congruence.
Qed.

(** The exact scatter-add raises the bound on the entries by at most the
    sum of the magnitudes of the updates. *)
Lemma tensor_scatter_nd_add_bounded B events indices updates events' :
  bounded B events →
  tensor_scatter_nd_add events indices updates = Some events' →
  bounded (B + sum_with Z.abs updates) events'.
Proof.
  revert events updates B.
  induction indices as [|ix indices IH]; intros events [|v updates] B Hb;
    simpl; try discriminate.
  - intros [= <-]. apply (bounded_mono B); [|done].
    unfold sum_with. simpl. lia.
  - destruct (scatter_add_row events ix v) as [e1|] eqn:Hrow; simpl;
      [|discriminate].
    intros Hrest.
    apply scatter_add_row_Some in Hrow as (m & t & x & c & _ & _ & ->).
    apply (IH _ _ (B + Z.abs v)) in Hrest; [|by apply bounded_alter_add].
    eapply bounded_mono; [|exact Hrest].
    change (sum_with Z.abs (v :: updates))
      with (Z.abs v + sum_with Z.abs updates). lia.
Qed.

(** While the entries and the updates together stay within [2 ^ p], the
    rounded scatter-add is the exact one. *)
Lemma rounded_scatter_exact p B events indices updates :
  bounded B events → B + sum_with Z.abs updates ≤ 2 ^ p →
  Rounded.tensor_scatter_nd_add p events indices updates
  = tensor_scatter_nd_add events indices updates.
Proof.
  revert events updates B.
  induction indices as [|ix indices IH]; intros events [|v updates] B Hb Hr;
    simpl; try done.
  rewrite sum_with_cons in Hr. pose proof (sum_abs_nonneg updates).
  rewrite (rounded_scatter_add_row_exact p B) by (done || lia).
  destruct (scatter_add_row events ix v) as [e1|] eqn:Hrow; simpl; [|done].
  apply scatter_add_row_Some in Hrow as (m & t & x & c & _ & _ & ->).
  apply (IH _ _ (B + Z.abs v)); [by apply bounded_alter_add | lia].
Qed.

Lemma rounded_add_events_exact p B events ms ts (x : IndexArg) xs :
  bounded B events → B + sum_with Z.abs xs ≤ 2 ^ p →
  Rounded._add_events p events ms ts x xs = _add_events events ms ts x xs.
Proof.
  intros Hb Hr. unfold Rounded._add_events, _add_events.
  destruct (tf_stack3 ms ts (_maybe_expand_dims x)) as [rows|]; simpl; [|done].
  by apply (rounded_scatter_exact p B).
Qed.

Lemma add_events_bounded B events ms ts (x : IndexArg) xs events' :
  bounded B events →
  _add_events events ms ts x xs = Some events' →
  bounded (B + sum_with Z.abs xs) events'.
Proof.
  intros Hb. unfold _add_events.
  destruct (tf_stack3 ms ts (_maybe_expand_dims x)) as [rows|]; simpl;
    [|discriminate].
  by apply tensor_scatter_nd_add_bounded.
Qed.

End ExactRange.

Section RoundedAddEvents.

Implicit Types (events : Tensor3) (ms ts xs : list Z) (x : IndexArg) (p B : Z).

(** X2. On a floating-point tensor whose entries are at most [B] in
    magnitude, with [B] plus the magnitudes of [x_star] at most [2 ^ p]: when
    [_add_events] returns, the result has the shape of [events], and each
    cell has grown by the sum of the [x_star] entries whose index triple
    names it. A triple that occurs more than once accumulates, a cell no
    triple names is unchanged. *)
Theorem add_events_cells_in_range p B events ms ts x xs events' :
  bounded B events → B + sum_with Z.abs xs ≤ 2 ^ p →
  Rounded._add_events p events ms ts x xs = Some events' →
  ∃ indices,
    tf_stack3 ms ts (_maybe_expand_dims x) = Some indices
    ∧ shape3 events' = shape3 events
    ∧ ∀ im it ix : nat,
        cell events' im it ix
        = (λ c, c + scattered indices xs im it ix) <$> cell events im it ix.
Proof.
  intros Hb Hr. rewrite (rounded_add_events_exact p B) by done.
  unfold _add_events.
  destruct (tf_stack3 ms ts (_maybe_expand_dims x)) as [rows|]; simpl;
    [|discriminate].
  intros [Hs Hc]%tensor_scatter_nd_add_cells. by exists rows.
Qed.

(** X3. Under the same bound, when [_add_events] returns, the sum of all
    entries of the tensor has grown by exactly the sum of [x_star]. *)
Theorem add_events_total_in_range p B events ms ts x xs events' :
  bounded B events → B + sum_with Z.abs xs ≤ 2 ^ p →
  Rounded._add_events p events ms ts x xs = Some events' →
  tensor_total events' = tensor_total events + sum_with id xs.
Proof.
  intros Hb Hr. rewrite (rounded_add_events_exact p B) by done.
  unfold _add_events.
  destruct (tf_stack3 ms ts (_maybe_expand_dims x)) as [rows|]; simpl;
    [|discriminate].
  apply tensor_scatter_nd_add_total.
Qed.

(** X4. On a floating-point tensor whose entries are at most [B] in
    magnitude, with [B] plus twice the magnitudes of [x_star] at most
    [2 ^ p]: adding [x_star] and then adding [- x_star] at the same indices
    gives the tensor back. *)
Theorem add_events_round_trip_in_range p B events ms ts x xs events' :
  bounded B events → B + 2 * sum_with Z.abs xs ≤ 2 ^ p →
  Rounded._add_events p events ms ts x xs = Some events' →
  Rounded._add_events p events' ms ts x (Z.opp <$> xs) = Some events.
Proof.
  intros Hb Hr. pose proof (sum_abs_nonneg xs).
  rewrite (rounded_add_events_exact p B) by (done || lia). intros H1.
  rewrite (rounded_add_events_exact p (B + sum_with Z.abs xs)).
  - revert H1. unfold _add_events.
    destruct (tf_stack3 ms ts (_maybe_expand_dims x)) as [rows|]; simpl;
      [|discriminate].
    apply scatter_round_trip.
  - by apply (add_events_bounded B events ms ts x).
  - rewrite sum_abs_opp. lia.
Qed.

(** X5. On a floating-point tensor whose entries are at most [B] in
    magnitude, with [B] plus the magnitudes of both updates at most [2 ^ p]:
    if the first update and then the second return, so do the second and
    then the first, with the same final tensor. *)
Theorem add_events_commute_in_range p B events ms1 ts1 x1 xs1 ms2 ts2 x2 xs2
    e1 e2 :
  bounded B events →
  B + sum_with Z.abs xs1 + sum_with Z.abs xs2 ≤ 2 ^ p →
  Rounded._add_events p events ms1 ts1 x1 xs1 = Some e1 →
  Rounded._add_events p e1 ms2 ts2 x2 xs2 = Some e2 →
  ∃ e1', Rounded._add_events p events ms2 ts2 x2 xs2 = Some e1'
    ∧ Rounded._add_events p e1' ms1 ts1 x1 xs1 = Some e2.
Proof.
  intros Hb Hr.
  pose proof (sum_abs_nonneg xs1). pose proof (sum_abs_nonneg xs2).
  rewrite (rounded_add_events_exact p B) by (done || lia). intros H1.
  pose proof (add_events_bounded B _ _ _ _ _ _ Hb H1) as Hb1.
  rewrite (rounded_add_events_exact p (B + sum_with Z.abs xs1)) by done.
  intros H2.
  assert (∃ e1', _add_events events ms2 ts2 x2 xs2 = Some e1'
                 ∧ _add_events e1' ms1 ts1 x1 xs1 = Some e2)
    as (e1' & H1' & H2').
  { revert H1 H2. unfold _add_events.
    destruct (tf_stack3 ms1 ts1 (_maybe_expand_dims x1)) as [rows1|]; simpl;
      [|discriminate].
    destruct (tf_stack3 ms2 ts2 (_maybe_expand_dims x2)) as [rows2|]; simpl;
      [|discriminate].
    apply scatter_commute. }
  exists e1'. split.
  - by rewrite (rounded_add_events_exact p B) by (done || lia).
  - pose proof (add_events_bounded B _ _ _ _ _ _ Hb H1') as Hb1'.
    by rewrite (rounded_add_events_exact p (B + sum_with Z.abs xs2))
      by (done || lia).
Qed.

End RoundedAddEvents.

Lemma add_events_cells_in_range_witness :
  bounded 3 Example.events0
  ∧ Rounded._add_events 24 Example.events0 [0; 0] [1; 1] (Vector [1; 1]) [2; 5]
    = Some [[[3; 0]; [1; 9]]]
  ∧ cell [[[3; 0]; [1; 9]]] 0 1 1 = Some (2 + (2 + 5))
  ∧ cell [[[3; 0]; [1; 9]]] 0 0 0 = Some 3.
Proof.
  assert (Hb : bounded 3 Example.events0) by (repeat constructor; by vm_compute).
  split; [exact Hb|]. split; [reflexivity|].
  destruct (add_events_cells_in_range 24 3 Example.events0 [0; 0] [1; 1]
              (Vector [1; 1]) [2; 5] [[[3; 0]; [1; 9]]] Hb)
    as (indices & Hst & _ & Hc); [by vm_compute | reflexivity |].
  injection Hst as <-. split.
  - exact (Hc 0%nat 1%nat 1%nat).
  - exact (Hc 0%nat 0%nat 0%nat).
Defined.

Lemma add_events_total_in_range_witness :
  bounded 3 Example.events0
  ∧ Rounded._add_events 24 Example.events0 [0; 0] [1; 0] (Vector [1; 0]) [2; -1]
    = Some [[[2; 0]; [1; 4]]]
  ∧ tensor_total [[[2; 0]; [1; 4]]] = tensor_total Example.events0 + (2 + -1).
Proof.
  assert (Hb : bounded 3 Example.events0) by (repeat constructor; by vm_compute).
  split; [exact Hb|]. split; [reflexivity|].
  apply (add_events_total_in_range 24 3 Example.events0 [0; 0] [1; 0]
           (Vector [1; 0]) [2; -1] [[[2; 0]; [1; 4]]] Hb);
    [by vm_compute | reflexivity].
Defined.

Lemma add_events_round_trip_in_range_witness :
  bounded 3 Example.events0
  ∧ Rounded._add_events 24 Example.events0 [0; 0] [1; 1] (Vector [1; 1]) [2; 5]
    = Some [[[3; 0]; [1; 9]]]
  ∧ Rounded._add_events 24 [[[3; 0]; [1; 9]]] [0; 0] [1; 1] (Vector [1; 1])
      [-2; -5]
    = Some Example.events0.
Proof.
  assert (Hb : bounded 3 Example.events0) by (repeat constructor; by vm_compute).
  split; [exact Hb|]. split; [reflexivity|].
  apply (add_events_round_trip_in_range 24 3 Example.events0 [0; 0] [1; 1]
           (Vector [1; 1]) [2; 5] [[[3; 0]; [1; 9]]] Hb);
    [by vm_compute | reflexivity].
Defined.

Lemma add_events_commute_in_range_witness :
  bounded 3 Example.events0
  ∧ Rounded._add_events 24 Example.events0 [0] [1] (Scalar 1) [2]
    = Some [[[3; 0]; [1; 4]]]
  ∧ Rounded._add_events 24 [[[3; 0]; [1; 4]]] [0] [0] (Scalar 0) [-3]
    = Some [[[0; 0]; [1; 4]]]
  ∧ ∃ e1', Rounded._add_events 24 Example.events0 [0] [0] (Scalar 0) [-3]
           = Some e1'
      ∧ Rounded._add_events 24 e1' [0] [1] (Scalar 1) [2]
        = Some [[[0; 0]; [1; 4]]].
Proof.
  assert (Hb : bounded 3 Example.events0) by (repeat constructor; by vm_compute).
  split; [exact Hb|]. split; [reflexivity|]. split; [reflexivity|].
  apply (add_events_commute_in_range 24 3 Example.events0 [0] [1] (Scalar 1)
           [2] [0] [0] (Scalar 0) [-3] [[[3; 0]; [1; 4]]] [[[0; 0]; [1; 4]]]
           Hb); [by vm_compute | reflexivity | reflexivity].
Defined.


(** ** The event total across [one_step], within the exact range *)

Section RoundedKernelTotals.

Context {State : Type}.
Variable AddOccultProposal :
  Tensor3 → Topology → State → Z → option (Z * Z) → option string → Proposal.
Variable DelOccultProposal :
  Tensor3 → Topology → State → option (Z * Z) → Z → Proposal.
Variable p : Z.

Implicit Types (k : Kernel State) (events : Tensor3) (update : Update).

(** While the entries and the sampled counts together stay within [2 ^ p],
    [one_step] on the floating-point tensor is [one_step] in exact integer
    arithmetic. *)
Lemma rounded_one_step_exact B k events prev u update :
  0 ≤ B → bounded B events →
  B + sum_with Z.abs (x_star update) ≤ 2 ^ p →
  Rounded.one_step AddOccultProposal DelOccultProposal p k events prev u update
  = one_step AddOccultProposal DelOccultProposal k events prev u update.
Proof.
  intros HB Hb Hr.
  assert (Hcast : Rounded.tf_cast p (x_star update) = x_star update).
  { apply tf_cast_exact, sum_abs_bounds_entries. lia. }
  assert (Hcast' : Rounded.tf_cast p (Z.opp <$> x_star update)
                   = Z.opp <$> x_star update).
  { apply tf_cast_exact, sum_abs_bounds_entries. rewrite sum_abs_opp. lia. }
  unfold Rounded.one_step, one_step,
    Rounded.add_occult_fn, add_occult_fn,
    Rounded.del_occult_fn, del_occult_fn.
  rewrite Hcast, Hcast'.
  rewrite !(rounded_add_events_exact p B) by (done || by rewrite sum_abs_opp).
  done.
Qed.

(** X13. On a floating-point tensor whose entries are at most [B] in
    magnitude, with [B + |x_star|] at most [2 ^ p], a returning [one_step]
    changes the sum of all entries by exactly the sampled count: plus
    [x_star] on the add branch, minus [x_star] on the delete branch. *)
Theorem one_step_total_in_range B k events prev u update next_state results
    (x : Z) :
  bounded B events →
  x_star update = [x] →
  B + Z.abs x ≤ 2 ^ p →
  Rounded.one_step AddOccultProposal DelOccultProposal p k events prev u update
  = Some (next_state, results) →
  ∃ branch,
    chosen_branch k events u = Some branch
    ∧ tensor_total next_state
      = tensor_total events + match branch with Add => x | Delete => - x end.
Proof.
  intros Hb Hx Hr
    (b & im & it & x' & c & Hbr & _ & _ & Hx' & Hc & ->)
    %rounded_one_step_alter_cell.
  assert (x' = x) as -> by congruence.
  exists b. split; [done|].
  pose proof (proj1 (bounded_cell B events) Hb _ _ _ _ Hc) as Hc0.
  rewrite (alter_cell_ext_at _
             (λ c, c + match b with Add => x | Delete => - x end)
             _ _ _ _ c Hc).
  - by apply (tensor_total_alter_cell _ _ _ _ c).
  - destruct b.
    + rewrite (round_to_precision_exact p x) by lia.
      apply round_to_precision_exact. lia.
    + rewrite (round_to_precision_exact p (- x)) by lia.
      apply round_to_precision_exact. lia.
Qed.

End RoundedKernelTotals.

Lemma one_step_total_in_range_witness :
  bounded 3 Example.events0
  ∧ Rounded.one_step Example.AddOccultProposal Example.DelOccultProposal 24
      Example.kernel Example.events0 Example.results0 (1 # 4) Example.update0
    = Some (Example.events_del, Example.results_del)
  ∧ tensor_total Example.events_del = tensor_total Example.events0 + - 2.
Proof.
  assert (Hb : bounded 3 Example.events0) by (repeat constructor; by vm_compute).
  split; [exact Hb|]. split; [reflexivity|].
  destruct (one_step_total_in_range Example.AddOccultProposal
              Example.DelOccultProposal 24 3 Example.kernel Example.events0
              Example.results0 (1 # 4) Example.update0 Example.events_del
              Example.results_del 2 Hb) as (b & Hbr & Ht);
    [reflexivity | by vm_compute | reflexivity |].
  injection Hbr as <-. exact Ht.
Defined.

(** The rounding at the edge of float32 and of float64. *)
Example round_to_precision_float32 :
  Rounded.round_to_precision 24 <$> [2 ^ 24; 2 ^ 24 + 1; 2 ^ 24 + 3; - (2 ^ 25 + 6)]
  = [2 ^ 24; 2 ^ 24; 2 ^ 24 + 4; - (2 ^ 25 + 8)].
Proof. reflexivity. Qed.

Example round_to_precision_float64 :
  Rounded.round_to_precision 53 <$> [2 ^ 53 - 1; 2 ^ 53 + 1; 2 ^ 53 + 3]
  = [2 ^ 53 - 1; 2 ^ 53; 2 ^ 53 + 4].
Proof. reflexivity. Qed.
